(** * Route nodes: a shallow embedding of [get_route_nodes.py]

    The script asks a routing service for a route, removes recently repeated
    nodes, annotates every node with great-circle distances and writes the
    result as two GeoJSON texts.  A finite Python float is a real number; the
    distance function is given twice, on exact reals ([gcd]) and in an
    arithmetic that rounds ([gcd_fl]), and the annotation is in the
    arithmetic that rounds.  A missing value ([None] or [NaN]) is [None] of
    an option type, a raised exception the [Raise] branch of a result type.
    The pandas, math and requests calls are modelled by what they return. *)

From Stdlib Require Import String Ascii Bool Arith ZArith Lia.
From Stdlib Require Import Decimal DecimalString DecimalNat DecimalFacts.
From Stdlib Require Import Reals Lra Psatz.
From Stdlib Require Import List.
Import ListNotations.

Set Implicit Arguments.
Set Warnings "-register-all".

(** ** Python values and exceptions *)

(** The values [json.loads] can return, which are also the values a Python
    list such as [prev_5_nodes] can hold. *)
Inductive pyobj : Type :=
| PNone
| PBool (b : bool)
| PInt (z : Z)
| PFloat (x : R)
| PStr (s : string)
| PList (l : list pyobj)
| PDict (m : list (string * pyobj)).

Inductive exn : Type :=
| TypeError | KeyError | IndexError | ValueError | JSONDecodeError.

Inductive result (A : Type) : Type :=
| Ok (a : A)
| Raise (e : exn).
Arguments Ok {A} a.
Arguments Raise {A} e.

Definition bind {A B} (r : result A) (k : A -> result B) : result B :=
  match r with
  | Ok a => k a
  | Raise e => Raise e
  end.

Notation "x <- c ;; k" := (bind c (fun x => k))
  (at level 61, c at next level, right associativity).

Fixpoint mapM {A B} (f : A -> result B) (l : list A) : result (list B) :=
  match l with
  | [] => Ok []
  | a :: t => b <- f a ;; bs <- mapM f t ;; Ok (b :: bs)
  end.

(** ** Route points *)

(** One entry [[node_id, node_lat, node_lon]] of a node list.  The id is a
    string ('start', 'end' or 'lat|lon'); the coordinates are of type [C]. *)
Record RoutePoint (C : Type) : Type := mkPoint {
  node_id : string;
  node_lat : C;
  node_lon : C
}.
Arguments mkPoint {C} _ _ _.

(** ** [gcd]: the great-circle distance *)

(** A table cell or function argument that may be missing. *)
Definition cell : Type := option R.

Definition isnull (c : cell) : bool :=
  match c with
  | None => true
  | Some _ => false
  end.

(** [math.radians] *)
Definition radians (x : R) : R := x * (PI / 180).

(** [math.sqrt] raises [ValueError] on a negative argument. *)
Definition math_sqrt (x : R) : result R :=
  if Rlt_dec x 0 then Raise ValueError else Ok (sqrt x).

(** [math.atan2 y x]: the angle of the point [(x, y)], in [(-PI, PI]]. *)
Definition atan2 (y x : R) : R :=
  if Rlt_dec 0 x then atan (y / x)
  else if Rlt_dec x 0 then
    if Rle_dec 0 y then atan (y / x) + PI else atan (y / x) - PI
  else if Rlt_dec 0 y then PI / 2
  else if Rlt_dec y 0 then - (PI / 2)
  else 0.

Definition earth_radius : R := 3956.

(** [gcd] on exact reals: the value the function approximates.  Here the
    term [a] always lies in [0, 1] and no square root raises; the function
    as it runs on floats is [gcd_fl] below. *)
Definition gcd (o_lat o_lon d_lat d_lon : cell) : result R :=
  match o_lat, o_lon, d_lat, d_lon with
  | Some o_lat, Some o_lon, Some d_lat, Some d_lon =>
      let lat_diff := radians (d_lat - o_lat) in
      let lon_diff := radians (d_lon - o_lon) in
      let a := sin (lat_diff / 2) ^ 2
               + cos (radians o_lat) * cos (radians d_lat)
                 * sin (lon_diff / 2) ^ 2 in
      sa <- math_sqrt a ;;
      sb <- math_sqrt (1 - a) ;;
      let c := 2 * atan2 sa sb in
      let d := earth_radius * c in
      Ok d
  | _, _, _, _ => Ok 0 (* isnull(o_lat) or isnull(o_lon) or ... *)
  end%R.

(** ** [gcd] on floats *)

(** Python's floats are IEEE-754 doubles.  A finite double is a real number.
    An operation of the processor (+, -, *, /, sqrt) returns the exact result
    rounded to a double; a function of the C library (sin, cos, atan2, pow)
    returns a double near the exact result.  The rounding and the library
    functions are the parameters of the arithmetic.  Infinities and NaN are
    left out: they do not arise from finite coordinates. *)
Record arith : Type := mkArith {
  rnd : R -> R;            (* the double a real number is rounded to *)
  f_sin : R -> R;          (* math.sin *)
  f_cos : R -> R;          (* math.cos *)
  f_atan2 : R -> R -> R;   (* math.atan2 *)
  f_sq : R -> R;           (* x ** 2, the library's pow(x, 2.0) *)
  deg_to_rad : R           (* the constant pi / 180 of math.radians *)
}.

(** The arithmetic of the real numbers: nothing is rounded. *)
Definition exact : arith :=
  mkArith (fun x => x) sin cos atan2 (fun x => x ^ 2)%R (PI / 180)%R.

(** What the arithmetic has to respect; IEEE-754 rounding to nearest and
    the usual C libraries do.  Rounding keeps the order, changes no double
    (0 and 1 are doubles); sin(0.0) and pow(0.0, 2.0) are 0.0; atan2 of two
    non-negative numbers is non-negative, and atan2(0.0, 1.0) is 0.0. *)
Record arith_laws (M : arith) : Prop := mkLaws {
  rnd_mono : forall x y : R, (x <= y)%R -> (rnd M x <= rnd M y)%R;
  rnd_idem : forall x : R, rnd M (rnd M x) = rnd M x;
  rnd_0 : rnd M 0 = 0%R;
  rnd_1 : rnd M 1 = 1%R;
  sin_at_0 : f_sin M 0 = 0%R;
  sq_at_0 : f_sq M 0 = 0%R;
  atan2_sign : forall y x : R,
    (0 <= y)%R -> (0 <= x)%R -> (0 <= f_atan2 M y x)%R;
  atan2_at_0_1 : f_atan2 M 0 1 = 0%R
}.

Section Rounded.
Variable M : arith.
Local Open Scope R_scope.

Definition f_add (x y : R) : R := rnd M (x + y).
Definition f_sub (x y : R) : R := rnd M (x - y).
Definition f_mul (x y : R) : R := rnd M (x * y).
Definition f_div (x y : R) : R := rnd M (x / y).
Definition f_sqrt (x : R) : R := rnd M (sqrt x).

(** [math.radians]: [x * degToRad]. *)
Definition radians_fl (x : R) : R := f_mul x (deg_to_rad M).

(** [math.sqrt] raises [ValueError] on a negative argument. *)
Definition math_sqrt_fl (x : R) : result R :=
  if Rlt_dec x 0 then Raise ValueError else Ok (f_sqrt x).

(** The haversine term [a] as the function computes it. *)
Definition a_fl (o_lat o_lon d_lat d_lon : R) : R :=
  let lat_diff := radians_fl (f_sub d_lat o_lat) in
  let lon_diff := radians_fl (f_sub d_lon o_lon) in
  f_add (f_sq M (f_sin M (f_div lat_diff 2)))
        (f_mul (f_mul (f_cos M (radians_fl o_lat))
                      (f_cos M (radians_fl d_lat)))
               (f_sq M (f_sin M (f_div lon_diff 2)))).

(** [gcd], every operation in the arithmetic [M]. *)
Definition gcd_fl (o_lat o_lon d_lat d_lon : cell) : result R :=
  match o_lat, o_lon, d_lat, d_lon with
  | Some o_lat, Some o_lon, Some d_lat, Some d_lon =>
      let lat_diff := radians_fl (f_sub d_lat o_lat) in
      let lon_diff := radians_fl (f_sub d_lon o_lon) in
      let a := f_add (f_sq M (f_sin M (f_div lat_diff 2)))
                     (f_mul (f_mul (f_cos M (radians_fl o_lat))
                                   (f_cos M (radians_fl d_lat)))
                            (f_sq M (f_sin M (f_div lon_diff 2)))) in
      sa <- math_sqrt_fl a ;;
      sb <- math_sqrt_fl (f_sub 1 a) ;;
      let c := f_mul 2 (f_atan2 M sa sb) in
      let d := f_mul earth_radius c in
      Ok d
  | _, _, _, _ => Ok 0 (* isnull(o_lat) or isnull(o_lon) or ... *)
  end.

End Rounded.

(** ** [get_nodes]: the route fetcher *)

(** What [requests.get] returns, as far as the script reads it. *)
Record response : Type := mkResponse {
  status_code : Z;
  text : string
}.

(** [o[k]] for a string key: only a dict can be subscripted by a string. *)
Fixpoint dict_get (m : list (string * pyobj)) (k : string) : option pyobj :=
  match m with
  | [] => None
  | (k', v) :: t => if String.eqb k k' then Some v else dict_get t k
  end.

Definition getitem_key (o : pyobj) (k : string) : result pyobj :=
  match o with
  | PDict m =>
      match dict_get m k with
      | Some v => Ok v
      | None => Raise KeyError
      end
  | _ => Raise TypeError
  end.

(** [o[i]] for a non-negative integer: lists and strings are indexed, a dict
    of string keys has no integer key, nothing else can be subscripted. *)
Definition getitem_idx (o : pyobj) (i : nat) : result pyobj :=
  match o with
  | PList l =>
      match nth_error l i with
      | Some v => Ok v
      | None => Raise IndexError
      end
  | PStr s =>
      match String.get i s with
      | Some c => Ok (PStr (String c EmptyString))
      | None => Raise IndexError
      end
  | PDict _ => Raise KeyError
  | _ => Raise TypeError
  end.

(** The values a [for] loop over [o] visits: the elements of a list, the
    characters of a string, the keys of a dict. *)
Definition py_iter (o : pyobj) : result (list pyobj) :=
  match o with
  | PList l => Ok l
  | PStr s => Ok (map (fun c => PStr (String c EmptyString))
                      (list_ascii_of_string s))
  | PDict m => Ok (map (fun kv => PStr (fst kv)) m)
  | _ => Raise TypeError
  end.

Section Fetch.

(** [json.loads]: [None] when the text is not JSON. *)
Variable json_loads : string -> option pyobj.

(** The builtin [str]. *)
Variable py_str : pyobj -> string.

(** The body of the inner loop: the node of one intersection. *)
Definition intersection_node (i : pyobj) : result (RoutePoint pyobj) :=
  loc <- getitem_key i "location" ;;
  lat <- getitem_idx loc 1 ;;
  lon <- getitem_idx loc 0 ;;
  Ok (mkPoint (py_str lat ++ "|" ++ py_str lon)%string lat lon).

(** The inner loop, for one step. *)
Definition step_nodes (s : pyobj) : result (list (RoutePoint pyobj)) :=
  intersections <- getitem_key s "intersections" ;;
  items <- py_iter intersections ;;
  mapM intersection_node items.

(** The result is [Ok (Some node_list)] for [return node_list], [Ok None]
    for a bare [return], [Raise e] for an exception.  The branch for a status
    other than 200 builds its message with [', ' + d_lat], a string plus a
    float: [print] is never reached and neither is the bare [return]. *)
Definition get_nodes (o_lat o_lon d_lat d_lon : R) (r : response)
  : result (option (list (RoutePoint pyobj))) :=
  if negb (status_code r =? 200)%Z then
    Raise TypeError
  else
    doc <- match json_loads (text r) with
           | Some doc => Ok doc
           | None => Raise JSONDecodeError
           end ;;
    routes <- getitem_key doc "routes" ;;
    route0 <- getitem_idx routes 0 ;;
    legs <- getitem_key route0 "legs" ;;
    leg0 <- getitem_idx legs 0 ;;
    steps <- getitem_key leg0 "steps" ;;
    step_list <- py_iter steps ;;
    per_step <- mapM step_nodes step_list ;;
    let node_list := concat per_step in
    let node_list := mkPoint "start" (PFloat o_lat) (PFloat o_lon) :: node_list in
    let node_list := node_list ++ [mkPoint "end" (PFloat d_lat) (PFloat d_lon)] in
    Ok (Some node_list).

End Fetch.

(** ** The deduplication loop *)

(** [s == o] for a string [s]: a string equals no number. *)
Definition str_eq_obj (s : string) (o : pyobj) : bool :=
  match o with
  | PStr t => String.eqb s t
  | _ => false
  end.

(** [s in l] *)
Definition py_in (s : string) (l : list pyobj) : bool :=
  existsb (str_eq_obj s) l.

(** prev_5_nodes = [0,0,0,0,0] *)
Definition initial_window : list pyobj := repeat (PInt 0) 5.

(** One turn of [for i in range(len(full_node_list))]; the state is
    [(node_list_clean, prev_5_nodes)]. *)
Definition dedup_step {C} (st : list (RoutePoint C) * list pyobj)
  (x : RoutePoint C) : list (RoutePoint C) * list pyobj :=
  let '(node_list_clean, prev_5_nodes) := st in
  if negb (py_in (node_id x) prev_5_nodes) then
    (node_list_clean ++ [x], tl prev_5_nodes ++ [PStr (node_id x)])
  else st.

Definition dedup_loop {C} (full_node_list : list (RoutePoint C))
  (st : list (RoutePoint C) * list pyobj) : list (RoutePoint C) * list pyobj :=
  fold_left dedup_step full_node_list st.

Definition dedupe {C} (full_node_list : list (RoutePoint C))
  : list (RoutePoint C) :=
  fst (dedup_loop full_node_list ([], initial_window)).

(** ** The script, from the request to the cleaned node list *)

(** [node_list1 = get_nodes(...)], [full_node_list = node_list1], then
    [len(full_node_list)] in the first [print], then the deduplication loop.
    [len(None)] raises. *)
Definition script_clean (json_loads : string -> option pyobj)
  (py_str : pyobj -> string) (r : response)
  : result (list (RoutePoint pyobj)) :=
  node_list1 <-
    get_nodes json_loads py_str
      33.7354442%R (-84.3980167)%R 33.735652%R (-84.389573)%R r ;;
  let full_node_list := node_list1 in
  match full_node_list with
  | None => Raise TypeError
  | Some full_node_list => Ok (dedupe full_node_list)
  end.

(** ** The distance annotation *)

(** A row of the data frame once the distances are added and the helper
    columns dropped. *)
Record AnnotatedNode (F : Type) : Type := mkRow {
  point : RoutePoint F;
  dist_from_prev : F;
  dist_to_next : F;
  cuml_dist : F
}.
Arguments mkRow {F} _ _ _ _.

(** [Series.shift()]: every value moves one row down, the first is missing. *)
Definition shift (col : list cell) : list cell :=
  match col with
  | [] => []
  | _ :: _ => None :: removelast col
  end.

(** [Series.shift(-1)]: every value moves one row up, the last is missing. *)
Definition shift_up (col : list cell) : list cell :=
  match col with
  | [] => []
  | _ :: t => t ++ [None]
  end.

(** [Series.fillna(v)] *)
Definition fillna (v : R) (col : list cell) : list R :=
  map (fun c => match c with Some x => x | None => v end) col.

(** [Series.cumsum()]: the first value as it is, then every value added to
    the sum before it; a missing value is skipped and stays missing. *)
Fixpoint cumsum_from (add : R -> R -> R) (acc : option R) (col : list cell)
  : list cell :=
  match col with
  | [] => []
  | None :: t => None :: cumsum_from add acc t
  | Some x :: t =>
      let s := match acc with Some a => add a x | None => x end in
      Some s :: cumsum_from add (Some s) t
  end.

Definition cumsum (add : R -> R -> R) (col : list cell) : list cell :=
  cumsum_from add None col.

(** The rows [df.apply(..., axis=1)] hands to the lambda that calls [gcd]:
    [(prev_lat, prev_lon, node_lat, node_lon)]. *)
Definition gcd_rows (prev_lat prev_lon node_lat node_lon : list cell)
  : list ((cell * cell) * (cell * cell)) :=
  combine (combine prev_lat prev_lon) (combine node_lat node_lon).

Definition frame_rows (nodes : list (RoutePoint R))
  (dist_from_prev dist_to_next cuml_dist : list R) : list (AnnotatedNode R) :=
  map (fun '(p, (a, (b, c))) => mkRow p a b c)
      (combine nodes (combine dist_from_prev (combine dist_to_next cuml_dist))).

(** From [df = DataFrame(node_list_clean, ...)] to the [drop] of the helper
    columns, in the arithmetic [M].  The call of [apply] raises what a call
    of [gcd] raises.  A frame without rows is read as a frame of empty
    columns. *)
Definition annotate (M : arith) (node_list_clean : list (RoutePoint R))
  : result (list (AnnotatedNode R)) :=
  let node_lat := map (fun p => Some (node_lat p)) node_list_clean in
  let node_lon := map (fun p => Some (node_lon p)) node_list_clean in
  let prev_lat := shift node_lat in
  let prev_lon := shift node_lon in
  dist_from_prev <-
    mapM (fun '((prev_lat, prev_lon), (node_lat, node_lon)) =>
            gcd_fl M prev_lat prev_lon node_lat node_lon)
         (gcd_rows prev_lat prev_lon node_lat node_lon) ;;
  let dist_to_next := fillna 0 (shift_up (map Some dist_from_prev)) in
  let cuml_dist := fillna 0 (cumsum (f_add M) (map Some dist_from_prev)) in
  Ok (frame_rows node_list_clean dist_from_prev dist_to_next cuml_dist).

(** ** The GeoJSON serializer *)

Definition dquote : ascii := "034"%char.
Definition newline : ascii := "010"%char.

(** The script writes its string literals between single quotes and they
    hold double quotes only; [lit] reads such a literal written here with a
    single quote in place of every double quote. *)
Fixpoint lit (s : string) : string :=
  match s with
  | EmptyString => EmptyString
  | String c t => String (if Ascii.eqb c "'" then dquote else c) (lit t)
  end.

(** [str] of a non-negative integer. *)
Definition str_int (n : nat) : string :=
  NilEmpty.string_of_uint (Nat.to_uint n).

(** [df.apply(f, axis=1)]: the series of the results of [f] on the rows;
    [f] receives every row with its index label as [row.name], and the frame
    has the default index 0, 1, 2, ...  On a frame without rows pandas does
    not call [f] on a row, and what it returns has changed between versions;
    it is read here as the empty series. *)
Definition df_apply {A B} (f : nat * A -> B) (df : list A) : list B :=
  map f (combine (seq 0 (length df)) df).

(** [str.rjust] with blanks. *)
Fixpoint spaces (n : nat) : string :=
  match n with
  | O => EmptyString
  | S k => String " " (spaces k)
  end.

Definition rjust (width : nat) (x : string) : string :=
  (spaces (width - String.length x) ++ x)%string.

(** [Series.to_string(index=False, header=False)] on a series of strings:
    one value per line, right-justified to the common width.  pandas cuts a
    value longer than its option [display.max_colwidth] (50 when the program
    does not set it, [None] for no limit) down to that width, the last three
    characters being dots.  pandas also writes a newline, a tab or a carriage
    return inside a value as an escape; the values of the script hold none
    unless a node id does. *)
Definition to_string (max_colwidth : option nat) (values : list string)
  : string :=
  let max_len := fold_right Nat.max 0 (map String.length values) in
  let max_len :=
    match max_colwidth with
    | Some conf_max => Nat.min max_len conf_max
    | None => max_len
    end in
  let just x :=
    match max_colwidth with
    | Some conf_max =>
        if (3 <? conf_max) && (max_len <? String.length x)
        then (substring 0 (max_len - 3) x ++ "...")%string
        else x
    | None => x
    end in
  String.concat (String newline EmptyString)
    (map (fun x => rjust max_len (just x)) values).

Section Serializer.

(** The type of the numbers in the frame, and [str] on them. *)
Variable F : Type.
Variable str_float : F -> string.

Local Open Scope string_scope.

Definition point_string (row : nat * AnnotatedNode F) (points_count : nat)
  : string :=
  let '(name, row) := row in
  let point_string := lit "    {" in
  let point_string := point_string ++ lit "      'type': 'Feature'," in
  let point_string := point_string ++ lit "      'properties': { " in
  let point_string := point_string
    ++ lit "        'node_order': " ++ str_int name ++ "," in
  let point_string := point_string
    ++ lit "        'node_id': '" ++ node_id (point row) ++ lit "'," in
  let point_string := point_string
    ++ lit "        'distance_from_prev_node': "
    ++ str_float (dist_from_prev row) ++ "," in
  let point_string := point_string
    ++ lit "        'cuml_distance': " ++ str_float (cuml_dist row) ++ "," in
  let point_string := point_string
    ++ lit "        'distance_to_next_node': "
    ++ str_float (dist_to_next row) ++ "," in
  let point_string := point_string ++ lit "        'type': 'route node'" in
  let point_string := point_string ++ lit "      }," in
  let point_string := point_string ++ lit "      'geometry': {" in
  let point_string := point_string ++ lit "        'type': 'Point'," in
  let point_string := point_string
    ++ lit "        'coordinates': [" ++ str_float (node_lon (point row))
    ++ "," ++ str_float (node_lat (point row)) ++ "]" in
  let point_string := point_string ++ lit "      }" in
  let point_string := point_string ++ lit "    }" in
  if negb (Z.of_nat name =? Z.of_nat points_count - 1)%Z then
    point_string ++ ","
  else point_string.

(** The row is one of [df[['node_lat','node_lon']]]. *)
Definition line_string (row : nat * (F * F)) (points_count : nat) : string :=
  let '(name, (node_lat, node_lon)) := row in
  let line_string := "[" ++ str_float node_lon ++ "," ++ str_float node_lat
                     ++ "]" in
  if negb (Z.of_nat name =? Z.of_nat points_count - 1)%Z then
    line_string ++ ","
  else line_string.

Definition points_header : string :=
  let header := lit "{" in
  let header := header ++ lit "  'type' : 'FeatureCollection'," in
  let header := header ++ lit "  'features' : [" in
  header.

Definition points_footer : string :=
  let footer := lit "  ]" in
  let footer := footer ++ lit "}" in
  footer.

(** [concat([s_header, s_points, s_footer], ignore_index=True)] *)
Definition s_points (df : list (AnnotatedNode F)) : list string :=
  let points_count := length df in
  let s_points := df_apply (fun row => point_string row points_count) df in
  [points_header] ++ s_points ++ [points_footer].

Definition line_header : string :=
  let header := lit "{" in
  let header := header ++ lit "  'type' : 'FeatureCollection'," in
  let header := header ++ lit "  'features' : [" in
  let header := header ++ lit "    {" in
  let header := header ++ lit "      'type' : 'Feature'," in
  let header := header ++ lit "      'properties' : {}," in
  let header := header ++ lit "      'geometry' : {" in
  let header := header ++ lit "        'type' : 'LineString'," in
  let header := header ++ lit "        'coordinates' : [" in
  header.

Definition line_footer : string :=
  let footer := lit "        ]" in
  let footer := footer ++ lit "      }" in
  let footer := footer ++ lit "    }" in
  let footer := footer ++ lit "  ]" in
  let footer := footer ++ lit "}" in
  footer.

Definition lat_lon_columns (df : list (AnnotatedNode F)) : list (F * F) :=
  map (fun row => (node_lat (point row), node_lon (point row))) df.

Definition s_line (df : list (AnnotatedNode F)) : list string :=
  let points_count := length df in
  let s_line := df_apply (fun row => line_string row points_count)
                         (lat_lon_columns df) in
  [line_header] ++ s_line ++ [line_footer].

(** What is written to route_points_geojson.geojson and to
    route_line_geojson.geojson, under a given value of the pandas option. *)
Definition points_geojson (max_colwidth : option nat)
  (df : list (AnnotatedNode F)) : string :=
  to_string max_colwidth (s_points df).

Definition line_geojson (max_colwidth : option nat)
  (df : list (AnnotatedNode F)) : string :=
  to_string max_colwidth (s_line df).

End Serializer.

(** ** JSON texts (RFC 8259), to say what a valid text is *)

Inductive json : Type :=
| JNull
| JTrue
| JFalse
| JNumber (lexeme : string)
| JString (raw : string)
| JArray (elements : list json)
| JObject (members : list (string * json)).

Inductive token : Type :=
| TLBrace | TRBrace | TLBrack | TRBrack | TColon | TComma
| TString (raw : string)
| TNumber (lexeme : string)
| TTrue | TFalse | TNull.

Definition backslash : ascii := "092"%char.

Definition is_ws (c : ascii) : bool :=
  (Ascii.eqb c " " || Ascii.eqb c "009" || Ascii.eqb c "010"
   || Ascii.eqb c "013")%char.

Definition is_digit (c : ascii) : bool :=
  (48 <=? nat_of_ascii c) && (nat_of_ascii c <=? 57).

Definition is_hex (c : ascii) : bool :=
  is_digit c
  || ((65 <=? nat_of_ascii c) && (nat_of_ascii c <=? 70))
  || ((97 <=? nat_of_ascii c) && (nat_of_ascii c <=? 102)).

Definition is_lower (c : ascii) : bool :=
  (97 <=? nat_of_ascii c) && (nat_of_ascii c <=? 122).

(** *** Numbers: an optional minus sign, then 0 or a non-zero digit and
    more digits, then optionally a dot and digits, then optionally an
    exponent mark, a sign and digits. *)

Inductive nstate : Type :=
| NMinus | NZero | NInt | NDot | NFrac | NExpMark | NExpSign | NExp.

Definition number_start (c : ascii) : option nstate :=
  if Ascii.eqb c "-" then Some NMinus
  else if Ascii.eqb c "0" then Some NZero
  else if is_digit c then Some NInt
  else None.

Definition is_exp_mark (c : ascii) : bool :=
  Ascii.eqb c "e" || Ascii.eqb c "E".

Definition number_step (st : nstate) (c : ascii) : option nstate :=
  match st with
  | NMinus =>
      if Ascii.eqb c "0" then Some NZero
      else if is_digit c then Some NInt else None
  | NZero =>
      if Ascii.eqb c "." then Some NDot
      else if is_exp_mark c then Some NExpMark else None
  | NInt =>
      if is_digit c then Some NInt
      else if Ascii.eqb c "." then Some NDot
      else if is_exp_mark c then Some NExpMark else None
  | NDot => if is_digit c then Some NFrac else None
  | NFrac =>
      if is_digit c then Some NFrac
      else if is_exp_mark c then Some NExpMark else None
  | NExpMark =>
      if Ascii.eqb c "+" || Ascii.eqb c "-" then Some NExpSign
      else if is_digit c then Some NExp else None
  | NExpSign => if is_digit c then Some NExp else None
  | NExp => if is_digit c then Some NExp else None
  end.

Definition number_accept (st : nstate) : bool :=
  match st with
  | NZero | NInt | NFrac | NExp => true
  | _ => false
  end.

Fixpoint number_run (st : nstate) (s : string) : option nstate :=
  match s with
  | EmptyString => Some st
  | String c t =>
      match number_step st c with
      | Some st' => number_run st' t
      | None => None
      end
  end.

Definition is_json_number (s : string) : bool :=
  match s with
  | EmptyString => false
  | String c t =>
      match number_start c with
      | Some st =>
          match number_run st t with
          | Some st' => number_accept st'
          | None => false
          end
      | None => false
      end
  end.

(** *** The lexer, one character at a time *)

Inductive lstate : Type :=
| LDefault
| LString (acc : string)
| LEscape (acc : string)
| LHex (acc : string) (k : nat)
| LNumber (st : nstate) (acc : string)
| LWord (acc : string).

Definition snoc (s : string) (c : ascii) : string :=
  (s ++ String c EmptyString)%string.

Definition lex_default (c : ascii) : option (list token * lstate) :=
  if is_ws c then Some ([], LDefault)
  else if Ascii.eqb c "{" then Some ([TLBrace], LDefault)
  else if Ascii.eqb c "}" then Some ([TRBrace], LDefault)
  else if Ascii.eqb c "[" then Some ([TLBrack], LDefault)
  else if Ascii.eqb c "]" then Some ([TRBrack], LDefault)
  else if Ascii.eqb c ":" then Some ([TColon], LDefault)
  else if Ascii.eqb c "," then Some ([TComma], LDefault)
  else if Ascii.eqb c dquote then Some ([], LString EmptyString)
  else match number_start c with
       | Some st => Some ([], LNumber st (String c EmptyString))
       | None =>
           if is_lower c then Some ([], LWord (String c EmptyString))
           else None
       end.

Definition close_number (st : nstate) (acc : string) : option token :=
  if number_accept st then Some (TNumber acc) else None.

Definition close_word (acc : string) : option token :=
  if String.eqb acc "true" then Some TTrue
  else if String.eqb acc "false" then Some TFalse
  else if String.eqb acc "null" then Some TNull
  else None.

(** A token just closed by the character [c], then [c] itself. *)
Definition then_default (t : option token) (c : ascii)
  : option (list token * lstate) :=
  match t, lex_default c with
  | Some t, Some (ts, st) => Some (t :: ts, st)
  | _, _ => None
  end.

Definition is_simple_escape (c : ascii) : bool :=
  (Ascii.eqb c dquote || Ascii.eqb c backslash || Ascii.eqb c "/"
   || Ascii.eqb c "b" || Ascii.eqb c "f" || Ascii.eqb c "n"
   || Ascii.eqb c "r" || Ascii.eqb c "t")%char.

Definition lex_step (st : lstate) (c : ascii) : option (list token * lstate) :=
  match st with
  | LDefault => lex_default c
  | LString acc =>
      if Ascii.eqb c dquote then Some ([TString acc], LDefault)
      else if Ascii.eqb c backslash then Some ([], LEscape (snoc acc c))
      else if nat_of_ascii c <? 32 then None
      else Some ([], LString (snoc acc c))
  | LEscape acc =>
      if is_simple_escape c then Some ([], LString (snoc acc c))
      else if Ascii.eqb c "u" then Some ([], LHex (snoc acc c) 3)
      else None
  | LHex acc k =>
      if is_hex c then
        match k with
        | O => Some ([], LString (snoc acc c))
        | S k' => Some ([], LHex (snoc acc c) k')
        end
      else None
  | LNumber st acc =>
      match number_step st c with
      | Some st' => Some ([], LNumber st' (snoc acc c))
      | None => then_default (close_number st acc) c
      end
  | LWord acc =>
      if is_lower c then Some ([], LWord (snoc acc c))
      else then_default (close_word acc) c
  end.

Fixpoint lex_run (st : lstate) (s : string) : option (list token * lstate) :=
  match s with
  | EmptyString => Some ([], st)
  | String c t =>
      match lex_step st c with
      | Some (ts, st') =>
          match lex_run st' t with
          | Some (ts', st'') => Some (ts ++ ts', st'')
          | None => None
          end
      | None => None
      end
  end.

Definition lex_end (st : lstate) : option (list token) :=
  match st with
  | LDefault => Some []
  | LNumber st acc => option_map (fun t => [t]) (close_number st acc)
  | LWord acc => option_map (fun t => [t]) (close_word acc)
  | _ => None
  end.

Definition lex (s : string) : option (list token) :=
  match lex_run LDefault s with
  | Some (ts, st) =>
      match lex_end st with
      | Some te => Some (ts ++ te)
      | None => None
      end
  | None => None
  end.

(** *** The parser, on tokens.  The fuel bounds the number of nested calls;
    the length of the token list is always enough. *)

Fixpoint parse_value (fuel : nat) (ts : list token)
  : option (json * list token) :=
  match fuel with
  | O => None
  | S fuel =>
      match ts with
      | TNull :: rest => Some (JNull, rest)
      | TTrue :: rest => Some (JTrue, rest)
      | TFalse :: rest => Some (JFalse, rest)
      | TNumber n :: rest => Some (JNumber n, rest)
      | TString s :: rest => Some (JString s, rest)
      | TLBrack :: TRBrack :: rest => Some (JArray [], rest)
      | TLBrack :: rest =>
          match parse_elements fuel rest with
          | Some (vs, rest') => Some (JArray vs, rest')
          | None => None
          end
      | TLBrace :: TRBrace :: rest => Some (JObject [], rest)
      | TLBrace :: rest =>
          match parse_members fuel rest with
          | Some (ms, rest') => Some (JObject ms, rest')
          | None => None
          end
      | _ => None
      end
  end
with parse_elements (fuel : nat) (ts : list token)
  : option (list json * list token) :=
  match fuel with
  | O => None
  | S fuel =>
      match parse_value fuel ts with
      | Some (v, TComma :: rest) =>
          match parse_elements fuel rest with
          | Some (vs, rest') => Some (v :: vs, rest')
          | None => None
          end
      | Some (v, TRBrack :: rest) => Some ([v], rest)
      | _ => None
      end
  end
with parse_members (fuel : nat) (ts : list token)
  : option (list (string * json) * list token) :=
  match fuel with
  | O => None
  | S fuel =>
      match ts with
      | TString k :: TColon :: rest =>
          match parse_value fuel rest with
          | Some (v, TComma :: rest') =>
              match parse_members fuel rest' with
              | Some (ms, rest'') => Some ((k, v) :: ms, rest'')
              | None => None
              end
          | Some (v, TRBrace :: rest') => Some ([(k, v)], rest')
          | _ => None
          end
      | _ => None
      end
  end.

(** The value a text denotes, when the text is one JSON value. *)
Definition json_parse (s : string) : option json :=
  match lex s with
  | Some ts =>
      match parse_value (length ts) ts with
      | Some (v, []) => Some v
      | _ => None
      end
  | None => None
  end.

Definition json_valid (s : string) : bool :=
  match json_parse s with
  | Some _ => true
  | None => false
  end.

(** A string that can stand between two quotes as it is: no quote, no
    backslash, no control character. *)
Definition json_safe_char (c : ascii) : bool :=
  negb (Ascii.eqb c dquote) && negb (Ascii.eqb c backslash)
  && negb (nat_of_ascii c <? 32).

Fixpoint json_safe (s : string) : bool :=
  match s with
  | EmptyString => true
  | String c t => json_safe_char c && json_safe t
  end.

(** *** The tokens of a value: the inverse of the parser *)

Fixpoint join_comma (tss : list (list token)) : list token :=
  match tss with
  | [] => []
  | a :: t =>
      match t with
      | [] => a
      | _ :: _ => a ++ TComma :: join_comma t
      end
  end.

Fixpoint value_tokens (v : json) : list token :=
  match v with
  | JNull => [TNull]
  | JTrue => [TTrue]
  | JFalse => [TFalse]
  | JNumber n => [TNumber n]
  | JString s => [TString s]
  | JArray l => TLBrack :: join_comma (map value_tokens l) ++ [TRBrack]
  | JObject m =>
      TLBrace
      :: join_comma
           (map (fun kv => TString (fst kv) :: TColon :: value_tokens (snd kv))
                m)
      ++ [TRBrace]
  end.

Definition member_tokens (kv : string * json) : list token :=
  TString (fst kv) :: TColon :: value_tokens (snd kv).

(** A value starts with a token that closes nothing. *)
Definition opens (t : token) : bool :=
  match t with
  | TRBrack | TRBrace | TComma | TColon => false
  | _ => true
  end.

(** ** What the two GeoJSON texts should denote *)

Section Expected.
Variable F : Type.
Variable str_float : F -> string.
Local Open Scope string_scope.

(** The feature of the node at position [i], with the key the script gives
    to the cumulative distance as a parameter. *)
Definition point_feature_with (cuml_key : string) (i : nat)
  (row : AnnotatedNode F) : json :=
  JObject
    [("type", JString "Feature");
     ("properties",
      JObject
        [("node_order", JNumber (str_int i));
         ("node_id", JString (node_id (point row)));
         ("distance_from_prev_node", JNumber (str_float (dist_from_prev row)));
         (cuml_key, JNumber (str_float (cuml_dist row)));
         ("distance_to_next_node", JNumber (str_float (dist_to_next row)));
         ("type", JString "route node")]);
     ("geometry",
      JObject
        [("type", JString "Point");
         ("coordinates",
          JArray [JNumber (str_float (node_lon (point row)));
                  JNumber (str_float (node_lat (point row)))])])].

Definition point_feature : nat -> AnnotatedNode F -> json :=
  point_feature_with "cuml_distance".

Definition indexed {A} (l : list A) : list (nat * A) :=
  combine (seq 0 (length l)) l.

Definition point_collection (df : list (AnnotatedNode F)) : json :=
  JObject
    [("type", JString "FeatureCollection");
     ("features",
      JArray (map (fun '(i, row) => point_feature i row) (indexed df)))].

Definition position (row : AnnotatedNode F) : json :=
  JArray [JNumber (str_float (node_lon (point row)));
          JNumber (str_float (node_lat (point row)))].

Definition line_collection (df : list (AnnotatedNode F)) : json :=
  JObject
    [("type", JString "FeatureCollection");
     ("features",
      JArray
        [JObject
           [("type", JString "Feature");
            ("properties", JObject []);
            ("geometry",
             JObject
               [("type", JString "LineString");
                ("coordinates", JArray (map position df))])]])].

(** [str] prints every number of the frame as a JSON number. *)
Definition prints_numbers : Prop :=
  forall x : F, is_json_number (str_float x) = true.

(** Every node id can stand between quotes as it is. *)
Definition safe_ids (df : list (AnnotatedNode F)) : Prop :=
  Forall (fun row => json_safe (node_id (point row)) = true) df.

End Expected.

(** The option [display.max_colwidth] cuts none of the values. *)
Definition not_cut (max_colwidth : option nat) (values : list string) : Prop :=
  match max_colwidth with
  | None => True
  | Some conf_max => Forall (fun v => String.length v <= conf_max) values
  end.

(** The separator [point_string] and [line_string] put after the value of
    the row named [name]. *)
Definition separator (name points_count : nat) : string :=
  if negb (Z.of_nat name =? Z.of_nat points_count - 1)%Z
  then String "," EmptyString else EmptyString.

(** *** Texts as lists of fragments, to lex them piece by piece *)

Inductive frag : Type :=
| FLit (s : string)                      (* whole tokens and blanks *)
| FNum (lexeme : string) (delim : ascii) (* a number, then "," or "]" *)
| FStr (raw : string).                   (* a string between quotes *)

Definition render_frag (f : frag) : string :=
  match f with
  | FLit s => s
  | FNum n d => (n ++ String d EmptyString)%string
  | FStr r => String dquote (r ++ String dquote EmptyString)%string
  end.

Fixpoint render (fs : list frag) : string :=
  match fs with
  | [] => EmptyString
  | f :: t => (render_frag f ++ render t)%string
  end.

Definition frag_tokens (f : frag) : option (list token) :=
  match f with
  | FLit s =>
      match lex_run LDefault s with
      | Some (ts, LDefault) => Some ts
      | _ => None
      end
  | FNum n d =>
      if is_json_number n then
        if Ascii.eqb d "," then Some [TNumber n; TComma]
        else if Ascii.eqb d "]" then Some [TNumber n; TRBrack]
        else None
      else None
  | FStr r => if json_safe r then Some [TString r] else None
  end.

Fixpoint frags_tokens (fs : list frag) : option (list token) :=
  match fs with
  | [] => Some []
  | f :: t =>
      match frag_tokens f, frags_tokens t with
      | Some a, Some b => Some (a ++ b)
      | _, _ => None
      end
  end.

Section Fragments.
Variable F : Type.
Variable str_float : F -> string.
Local Open Scope string_scope.

(** The value [point_string] builds for a row, before the separator. *)
Definition point_frags (name : nat) (row : AnnotatedNode F) : list frag :=
  [FLit (lit "    {" ++ lit "      'type': 'Feature',"
         ++ lit "      'properties': { " ++ lit "        'node_order': ");
   FNum (str_int name) ",";
   FLit (lit "        'node_id': ");
   FStr (node_id (point row));
   FLit ("," ++ lit "        'distance_from_prev_node': ");
   FNum (str_float (dist_from_prev row)) ",";
   FLit (lit "        'cuml_distance': ");
   FNum (str_float (cuml_dist row)) ",";
   FLit (lit "        'distance_to_next_node': ");
   FNum (str_float (dist_to_next row)) ",";
   FLit (lit "        'type': 'route node'" ++ lit "      },"
         ++ lit "      'geometry': {" ++ lit "        'type': 'Point',"
         ++ lit "        'coordinates': [");
   FNum (str_float (node_lon (point row))) ",";
   FNum (str_float (node_lat (point row))) "]";
   FLit (lit "      }" ++ lit "    }")].

(** The value [line_string] builds for a row, before the separator. *)
Definition line_frags (row : AnnotatedNode F) : list frag :=
  [FLit "[";
   FNum (str_float (node_lon (point row))) ",";
   FNum (str_float (node_lat (point row))) "]"].

End Fragments.

(** The tokens of [separator]. *)
Definition sep_tokens (name points_count : nat) : list token :=
  if negb (Z.of_nat name =? Z.of_nat points_count - 1)%Z
  then [TComma] else [].

(** What [to_string] makes of a value under the width [w] when some value
    is as long as [w] or longer. *)
Definition cut_at (w : nat) (x : string) : string :=
  if w <? String.length x
  then (substring 0 (w - 3) x ++ "...")%string else x.

(** The common width [to_string] justifies to when it cuts nothing. *)
Definition common_width (values : list string) : nat :=
  fold_right Nat.max 0 (map String.length values).

(** The tokens of the headers and footers. *)
Definition points_header_tokens : list token :=
  [TLBrace; TString "type"; TColon; TString "FeatureCollection"; TComma;
   TString "features"; TColon; TLBrack].

Definition points_footer_tokens : list token := [TRBrack; TRBrace].

Definition line_header_tokens : list token :=
  [TLBrace; TString "type"; TColon; TString "FeatureCollection"; TComma;
   TString "features"; TColon; TLBrack;
   TLBrace; TString "type"; TColon; TString "Feature"; TComma;
   TString "properties"; TColon; TLBrace; TRBrace; TComma;
   TString "geometry"; TColon;
   TLBrace; TString "type"; TColon; TString "LineString"; TComma;
   TString "coordinates"; TColon; TLBrack].

Definition line_footer_tokens : list token :=
  [TRBrack; TRBrace; TRBrace; TRBrack; TRBrace].

(** ** Notions the statements use *)

(** The (at most) [n] last elements of a list. *)
Definition lastn {A} (n : nat) (l : list A) : list A :=
  skipn (length l - n) l.

(** The ids of the five most recently kept nodes. *)
Definition recent5 {C} (kept : list (RoutePoint C)) : list string :=
  lastn 5 (map (@node_id C) kept).

(** The window the loop carries, in terms of the nodes kept so far. *)
Definition window_of {C} (kept : list (RoutePoint C)) : list pyobj :=
  lastn 5 (initial_window ++ map PStr (map (@node_id C) kept)).

(** Python's [sum]: a left fold from 0, every addition in the arithmetic. *)
Definition py_sum (M : arith) (l : list R) : R := fold_left (f_add M) l 0%R.

(** The haversine term and the distance on non-missing coordinates. *)
Definition hav_a (o_lat o_lon d_lat d_lon : R) : R :=
  (sin (radians (d_lat - o_lat) / 2) ^ 2
   + cos (radians o_lat) * cos (radians d_lat)
     * sin (radians (d_lon - o_lon) / 2) ^ 2)%R.

Definition hav_dist (o_lat o_lon d_lat d_lon : R) : R :=
  let a := hav_a o_lat o_lon d_lat d_lon in
  (earth_radius * (2 * atan2 (sqrt a) (sqrt (1 - a))))%R.

(** The calls of [gcd] the annotation makes after the first row: one for
    every node and the node before it, in the order of the rows; the first
    call that raises ends them. *)
Fixpoint gcd_after (M : arith) (p : RoutePoint R) (l : list (RoutePoint R))
  : result (list R) :=
  match l with
  | [] => Ok []
  | q :: t =>
      d <- gcd_fl M (Some (node_lat p)) (Some (node_lon p))
                    (Some (node_lat q)) (Some (node_lon q)) ;;
      ds <- gcd_after M q t ;;
      Ok (d :: ds)
  end.

(** The column [dist_from_prev]: 0 for the first row, whose previous
    coordinates are missing. *)
Definition gcd_from_prev (M : arith) (l : list (RoutePoint R))
  : result (list R) :=
  match l with
  | [] => Ok []
  | p :: t => ds <- gcd_after M p t ;; Ok (0%R :: ds)
  end.

(** The column [dist_to_next] of a column [dist_from_prev]. *)
Definition to_next (ds : list R) : list R :=
  match ds with
  | [] => []
  | _ :: t => t ++ [0%R]
  end.

(** The running sums of a list: from an initial value, and from the first
    element. *)
Fixpoint running (add : R -> R -> R) (acc : R) (l : list R) : list R :=
  match l with
  | [] => []
  | x :: t => add acc x :: running add (add acc x) t
  end.

Definition accumulate (add : R -> R -> R) (l : list R) : list R :=
  match l with
  | [] => []
  | x :: t => x :: running add x t
  end.

(** Two nodes that follow one another in a list. *)
Definition neighbours {A} (l : list A) (p q : A) : Prop :=
  exists i, nth_error l i = Some p /\ nth_error l (S i) = Some q.

(** [gcd] returns on the coordinates of two nodes. *)
Definition gcd_returns (M : arith) (p q : RoutePoint R) : Prop :=
  exists d,
    gcd_fl M (Some (node_lat p)) (Some (node_lon p))
             (Some (node_lat q)) (Some (node_lon q)) = Ok d.

(** A double: a number that rounding leaves as it is. *)
Definition is_double (M : arith) (x : R) : Prop := rnd M x = x.

(** An arithmetic that is exact but for [cos], returned one part in 2^53
    too high: within the accuracy the C library promises. *)
Definition cos_up : arith :=
  mkArith (fun x => x) sin (fun x => cos x * (1 + / 2 ^ 53))%R atan2
          (fun x => x ^ 2)%R (PI / 180)%R.

(** The distances between neighbours on exact reals, in closed form. *)
Fixpoint dists_after (p : RoutePoint R) (l : list (RoutePoint R)) : list R :=
  match l with
  | [] => []
  | q :: t =>
      hav_dist (node_lat p) (node_lon p) (node_lat q) (node_lon q)
      :: dists_after q t
  end.





(** ** Tactics *)

(** A sequence of binds that returned: every step returned. *)
Ltac bind_inv H :=
  repeat match type of H with
         | bind ?c _ = Ok _ =>
             let E := fresh "E" in
             destruct c eqn:E; cbn [bind] in H; [|discriminate H]
         end.

(** Turn the pairwise distinctness of ids into boolean facts and run the
    loop on a concrete list of points. *)
Ltac neq_facts :=
  repeat match goal with
         | H : NoDup (_ :: _) |- _ => inversion_clear H
         | H : NoDup [] |- _ => clear H
         | H : ~ In _ _ |- _ => simpl in H
         | H : ~ (_ \/ _) |- _ => apply Decidable.not_or in H; destruct H
         | H : ~ False |- _ => clear H
         | H : ?x <> ?y |- _ =>
             pose proof (proj2 (String.eqb_neq x y) H);
             pose proof (proj2 (String.eqb_neq y x) (not_eq_sym H));
             clear H
         end.

Ltac run_dedupe :=
  unfold dedupe, dedup_loop;
  repeat (progress (simpl;
                    repeat match goal with
                           | H : String.eqb _ _ = false |- _ => rewrite H
                           end;
                    rewrite ?String.eqb_refl, ?orb_true_r)).

(** ** Further notions *)

(** [l1] is [l2] with some elements left out, the order kept. *)
Inductive subseq {A : Type} : list A -> list A -> Prop :=
| subseq_nil : subseq [] []
| subseq_skip (x : A) (l1 l2 : list A) : subseq l1 l2 -> subseq l1 (x :: l2)
| subseq_keep (x : A) (l1 l2 : list A) :
    subseq l1 l2 -> subseq (x :: l1) (x :: l2).

(** The nodes the loop appends when it starts with the window [w]. *)
Fixpoint dedup_from {C} (w : list pyobj) (l : list (RoutePoint C))
  : list (RoutePoint C) :=
  match l with
  | [] => []
  | x :: t =>
      if py_in (node_id x) w then dedup_from w t
      else x :: dedup_from (tl w ++ [PStr (node_id x)]) t
  end.

(** The length of a route: the sum of the distances between neighbours. *)
Fixpoint route_length (l : list (RoutePoint R)) : R :=
  match l with
  | [] => 0%R
  | p :: t =>
      match t with
      | [] => 0%R
      | q :: _ =>
          (hav_dist (node_lat p) (node_lon p) (node_lat q) (node_lon q)
           + route_length t)%R
      end
  end.

(** The string holds the bar that joins the coordinates of an id. *)
Fixpoint has_bar (s : string) : bool :=
  match s with
  | EmptyString => false
  | String c t => Ascii.eqb c "|" || has_bar t
  end.

(** The intersection [i] of a route response lies at [lat], [lon]:
    [i['location']] is [[lon, lat, ...]]. *)
Definition location_at (i lat lon : pyobj) : Prop :=
  exists loc,
    getitem_key i "location" = Ok loc
    /\ getitem_idx loc 1 = Ok lat /\ getitem_idx loc 0 = Ok lon.

(** The step [s] holds intersections at the coordinates [cs], as pairs
    (lat, lon), in this order. *)
Definition intersections_of (s : pyobj) (cs : list (pyobj * pyobj)) : Prop :=
  exists intersections items,
    getitem_key s "intersections" = Ok intersections
    /\ py_iter intersections = Ok items
    /\ Forall2 (fun i c => location_at i (fst c) (snd c)) items cs.

(** The steps of the first leg of the first route of a body. *)
Definition steps_of (body : option pyobj) (step_list : list pyobj) : Prop :=
  exists doc routes route0 legs leg0 steps,
    body = Some doc
    /\ getitem_key doc "routes" = Ok routes
    /\ getitem_idx routes 0 = Ok route0
    /\ getitem_key route0 "legs" = Ok legs
    /\ getitem_idx legs 0 = Ok leg0
    /\ getitem_key leg0 "steps" = Ok steps
    /\ py_iter steps = Ok step_list.

(** The node of an intersection at (lat, lon). *)
Definition coordinate_node (py_str : pyobj -> string) (c : pyobj * pyobj)
  : RoutePoint pyobj :=
  mkPoint (py_str (fst c) ++ "|" ++ py_str (snd c))%string (fst c) (snd c).

(** The id of a node is made of its coordinates. *)
Definition id_of_coordinates (py_str : pyobj -> string)
  (n : RoutePoint pyobj) : Prop :=
  node_id n = (py_str (node_lat n) ++ "|" ++ py_str (node_lon n))%string.

(** *** A well-formed route body

    What the routing service documents: an object whose "routes" is a list;
    the first route an object whose "legs" is a list; the first leg an
    object whose "steps" is a list of objects; every step with a list
    "intersections" of objects; every intersection with a "location", a list
    of two numbers or more, longitude first. *)












(** The GeoJSON position of a node: [lon, lat]. *)
Definition node_position {F} (str_float : F -> string) (p : RoutePoint F)
  : json :=
  JArray [JNumber (str_float (node_lon p)); JNumber (str_float (node_lat p))].

(** The collection of one LineString feature through the given positions. *)
Definition line_through (positions : list json) : json :=
  JObject
    [("type"%string, JString "FeatureCollection");
     ("features"%string,
      JArray
        [JObject
           [("type"%string, JString "Feature");
            ("properties"%string, JObject []);
            ("geometry"%string,
             JObject
               [("type"%string, JString "LineString");
                ("coordinates"%string, JArray positions)])]])].

(** [pd.options.display.max_colwidth = 10000], which the variant of the
    script dated 2019-08-12 sets before it writes the two files. *)
Definition variant_max_colwidth : nat := 100 * 100.

(** * Properties *)

(** ** The distance function *)

Section GcdFacts.
Local Open Scope R_scope.

Lemma radians_minus (x y : R) : radians (x - y) = radians x - radians y.
Proof. unfold radians. ring. Qed.

(** The half-angle formula for the square of a sine. *)
Lemma sin_half_sq (x : R) : sin (x / 2) ^ 2 = (1 - cos x) / 2.
Proof.
  pose proof (cos_2a_sin (x / 2)) as H.
  replace (2 * (x / 2)) with x in H by field.
  rewrite H. field.
Qed.

(** The argument of both square roots lies in [0, 1], whatever the
    coordinates: [math.sqrt] never raises. *)
Lemma hav_a_bounds (o_lat o_lon d_lat d_lon : R) :
  0 <= hav_a o_lat o_lon d_lat d_lon <= 1.
Proof.
  unfold hav_a. rewrite !sin_half_sq, radians_minus.
  set (p := radians o_lat). set (q := radians d_lat).
  set (l := radians (d_lon - o_lon)).
  pose proof (cos_minus q p) as Hm. pose proof (cos_plus q p) as Hp.
  pose proof (COS_bound (q - p)) as [Bm1 Bm2].
  pose proof (COS_bound (q + p)) as [Bp1 Bp2].
  pose proof (COS_bound l) as [Bl1 Bl2].
  rewrite Hm in *. rewrite Hp in *.
  set (c := cos p * cos q).
  assert (Hc : cos q * cos p = c) by (unfold c; ring).
  rewrite Hc in *.
  generalize dependent (sin q * sin p). intros s _ _ Bm1 Bm2 Bp1 Bp2.
  generalize dependent (cos l). intros h Bl1 Bl2.
  generalize dependent c. intros c _.
  destruct (Rle_dec 0 c); split; nra.
Qed.

Lemma math_sqrt_ok (x : R) : 0 <= x -> math_sqrt x = Ok (sqrt x).
Proof.
  intros H. unfold math_sqrt. destruct (Rlt_dec x 0); [lra|reflexivity].
Qed.

Lemma gcd_value (o_lat o_lon d_lat d_lon : R) :
  gcd (Some o_lat) (Some o_lon) (Some d_lat) (Some d_lon)
  = Ok (hav_dist o_lat o_lon d_lat d_lon).
Proof.
  pose proof (hav_a_bounds o_lat o_lon d_lat d_lon) as [H0 H1].
  unfold gcd, hav_dist. fold (hav_a o_lat o_lon d_lat d_lon).
  rewrite (math_sqrt_ok H0). simpl.
  rewrite math_sqrt_ok by lra. reflexivity.
Qed.

Lemma atan_nonneg (t : R) : 0 <= t -> 0 <= atan t.
Proof.
  intros [Ht| <-].
  - left. rewrite <- atan_0. now apply atan_increasing.
  - rewrite atan_0. lra.
Qed.

Lemma atan2_nonneg (y x : R) : 0 <= y -> 0 <= x -> 0 <= atan2 y x.
Proof.
  intros Hy Hx. unfold atan2. pose proof PI_RGT_0 as Hpi.
  destruct (Rlt_dec 0 x) as [Hx'|_].
  - apply atan_nonneg. apply Rmult_le_pos; [exact Hy|].
    left. now apply Rinv_0_lt_compat.
  - destruct (Rlt_dec x 0); [lra|].
    destruct (Rlt_dec 0 y); [lra|].
    destruct (Rlt_dec y 0); lra.
Qed.

Lemma hav_dist_nonneg (o_lat o_lon d_lat d_lon : R) :
  0 <= hav_dist o_lat o_lon d_lat d_lon.
Proof.
  unfold hav_dist, earth_radius.
  assert (0 <= atan2 (sqrt (hav_a o_lat o_lon d_lat d_lon))
                     (sqrt (1 - hav_a o_lat o_lon d_lat d_lon)))
    by (apply atan2_nonneg; apply sqrt_pos).
  lra.
Qed.

Lemma hav_dist_same (lat lon : R) : hav_dist lat lon lat lon = 0.
Proof.
  unfold hav_dist.
  assert (Ha : hav_a lat lon lat lon = 0).
  { unfold hav_a, radians.
    replace ((lat - lat) * (PI / 180) / 2) with 0 by field.
    replace ((lon - lon) * (PI / 180) / 2) with 0 by field.
    rewrite sin_0. ring. }
  rewrite Ha, Rminus_0_r, sqrt_0, sqrt_1.
  unfold atan2. destruct (Rlt_dec 0 1); [|lra].
  replace (0 / 1) with 0 by field. rewrite atan_0. ring.
Qed.

End GcdFacts.

(** ** The distance function on floats *)

(** On exact reals [gcd_fl] is [gcd]. *)
Lemma gcd_fl_exact (o_lat o_lon d_lat d_lon : cell) :
  gcd_fl exact o_lat o_lon d_lat d_lon = gcd o_lat o_lon d_lat d_lon.
Proof.
  destruct o_lat, o_lon, d_lat, d_lon; reflexivity.
Qed.

Lemma exact_laws : arith_laws exact.
Proof.
  constructor; simpl; intros; try lra.
  - apply sin_0.
  - now apply atan2_nonneg.
  - unfold atan2. destruct (Rlt_dec 0 1) as [_|H]; [|lra].
    replace (0 / 1)%R with 0%R by field. apply atan_0.
Qed.

Lemma cos_up_laws : arith_laws cos_up.
Proof.
  constructor; simpl; intros; try lra.
  - apply sin_0.
  - now apply atan2_nonneg.
  - unfold atan2. destruct (Rlt_dec 0 1) as [_|H]; [|lra].
    replace (0 / 1)%R with 0%R by field. apply atan_0.
Qed.

Section RoundedFacts.
Variable M : arith.
Local Open Scope R_scope.

(** The function raises exactly when the term [a] it has computed is
    negative or [1 - a] is; otherwise it returns. *)
Lemma gcd_fl_cases (o_lat o_lon d_lat d_lon : R) :
  let a := a_fl M o_lat o_lon d_lat d_lon in
  gcd_fl M (Some o_lat) (Some o_lon) (Some d_lat) (Some d_lon)
  = if Rlt_dec a 0 then Raise ValueError
    else if Rlt_dec (f_sub M 1 a) 0 then Raise ValueError
    else Ok (f_mul M earth_radius
               (f_mul M 2 (f_atan2 M (f_sqrt M a)
                                     (f_sqrt M (f_sub M 1 a))))).
Proof.
  intros a. unfold gcd_fl. fold (a_fl M o_lat o_lon d_lat d_lon). fold a.
  unfold math_sqrt_fl.
  destruct (Rlt_dec a 0); [reflexivity|]. cbn [bind].
  destruct (Rlt_dec (f_sub M 1 a) 0); reflexivity.
Qed.

Hypothesis laws : arith_laws M.

Lemma rnd_nonneg (x : R) : 0 <= x -> 0 <= rnd M x.
Proof.
  intros H. rewrite <- (rnd_0 laws). now apply (rnd_mono laws).
Qed.

Lemma zero_is_double : is_double M 0.
Proof. apply (rnd_0 laws). Qed.

Lemma rnd_is_double (x : R) : is_double M (rnd M x).
Proof. apply (rnd_idem laws). Qed.

(** A value [gcd] returns is non-negative. *)
Lemma gcd_fl_nonneg (o_lat o_lon d_lat d_lon : cell) (d : R) :
  gcd_fl M o_lat o_lon d_lat d_lon = Ok d -> 0 <= d.
Proof.
  destruct o_lat as [a1|], o_lon as [a2|], d_lat as [a3|], d_lon as [a4|];
    try (intros [= <-]; lra).
  rewrite gcd_fl_cases.
  destruct (Rlt_dec (a_fl M a1 a2 a3 a4) 0) as [|Ha]; [discriminate|].
  destruct (Rlt_dec (f_sub M 1 (a_fl M a1 a2 a3 a4)) 0) as [|Hb];
    [discriminate|].
  intros [= <-]. unfold f_mul, earth_radius.
  apply rnd_nonneg. apply Rmult_le_pos; [lra|].
  apply rnd_nonneg. apply Rmult_le_pos; [lra|].
  apply (atan2_sign laws); apply rnd_nonneg, sqrt_pos.
Qed.

(** A value [gcd] returns is a double. *)
Lemma gcd_fl_double (o_lat o_lon d_lat d_lon : cell) (d : R) :
  gcd_fl M o_lat o_lon d_lat d_lon = Ok d -> is_double M d.
Proof.
  destruct o_lat as [a1|], o_lon as [a2|], d_lat as [a3|], d_lon as [a4|];
    try (intros [= <-]; apply zero_is_double).
  rewrite gcd_fl_cases.
  destruct (Rlt_dec (a_fl M a1 a2 a3 a4) 0); [discriminate|].
  destruct (Rlt_dec (f_sub M 1 (a_fl M a1 a2 a3 a4)) 0); [discriminate|].
  intros [= <-]. apply rnd_is_double.
Qed.

Lemma a_fl_same (lat lon : R) : a_fl M lat lon lat lon = 0.
Proof.
  unfold a_fl, radians_fl, f_add, f_sub, f_mul, f_div.
  replace (lat - lat) with 0 by ring. replace (lon - lon) with 0 by ring.
  rewrite (rnd_0 laws), Rmult_0_l, (rnd_0 laws).
  replace (0 / 2) with 0 by field.
  rewrite (rnd_0 laws), (sin_at_0 laws), (sq_at_0 laws).
  rewrite Rmult_0_r, (rnd_0 laws), Rplus_0_r. apply (rnd_0 laws).
Qed.

(** Between a point and itself the function returns 0. *)
Lemma gcd_fl_same (lat lon : R) :
  gcd_fl M (Some lat) (Some lon) (Some lat) (Some lon) = Ok 0.
Proof.
  rewrite gcd_fl_cases, a_fl_same.
  unfold f_sub, f_sqrt, f_mul.
  replace (1 - 0) with 1 by ring. rewrite (rnd_1 laws).
  destruct (Rlt_dec 0 0) as [H|_]; [lra|].
  destruct (Rlt_dec 1 0) as [H|_]; [lra|].
  rewrite sqrt_0, sqrt_1, (rnd_0 laws), (rnd_1 laws), (atan2_at_0_1 laws).
  rewrite Rmult_0_r, (rnd_0 laws), Rmult_0_r, (rnd_0 laws). reflexivity.
Qed.

End RoundedFacts.

(** At the antipodal points (8, -136) and (-8, 44) the term [a] is 1 on
    exact reals. *)
Lemma hav_a_antipodes : hav_a 8 (-136) (-8) 44 = 1%R.
Proof.
  unfold hav_a, radians.
  replace ((-8 - 8) * (PI / 180) / 2)%R with (- (8 * (PI / 180)))%R
    by field.
  replace ((44 - -136) * (PI / 180) / 2)%R with (PI / 2)%R by field.
  replace (-8 * (PI / 180))%R with (- (8 * (PI / 180)))%R by field.
  rewrite sin_neg, cos_neg, sin_PI2.
  pose proof (sin2_cos2 (8 * (PI / 180))) as H. unfold Rsqr in H. lra.
Qed.

(** In the arithmetic [cos_up], which meets every law, the computed [a]
    exceeds 1 at these points and the function raises at
    [math.sqrt(1 - a)]. *)
Lemma gcd_cos_up_antipodes :
  gcd_fl cos_up (Some 8%R) (Some (-136)%R) (Some (-8)%R) (Some 44%R)
  = Raise ValueError.
Proof.
  rewrite gcd_fl_cases.
  assert (Hc : (0 < cos (8 * (PI / 180)))%R).
  { pose proof PI_RGT_0. apply cos_gt_0; lra. }
  assert (Ha : (1 < a_fl cos_up 8 (-136) (-8) 44)%R).
  { unfold a_fl, radians_fl, f_add, f_sub, f_mul, f_div. simpl.
    replace ((-8 - 8) * (PI / 180) / 2)%R with (- (8 * (PI / 180)))%R
      by field.
    replace ((44 - -136) * (PI / 180) / 2)%R with (PI / 2)%R by field.
    replace (-8 * (PI / 180))%R with (- (8 * (PI / 180)))%R by field.
    rewrite sin_neg, cos_neg, sin_PI2.
    pose proof (sin2_cos2 (8 * (PI / 180))) as H. unfold Rsqr in H.
    assert (He : (0 < / 2 ^ 53)%R) by (apply Rinv_0_lt_compat; lra).
    nra. }
  destruct (Rlt_dec (a_fl cos_up 8 (-136) (-8) 44) 0) as [H|_]; [lra|].
  destruct (Rlt_dec (f_sub cos_up 1 (a_fl cos_up 8 (-136) (-8) 44)) 0)
    as [_|H]; [reflexivity|].
  exfalso. apply H. unfold f_sub. cbn [rnd cos_up]. lra.
Qed.

(** C6 (the defect). At the antipodal points (8, -136) and (-8, 44), which
    are valid coordinates, the term [a] is exactly 1 on the reals; in an
    arithmetic that meets every law above and returns [cos] one part in 2^53
    too high the computed [a] exceeds 1 and the function raises
    [ValueError] at [math.sqrt(1 - a)] instead of returning a distance.  The
    function clamps [a] nowhere: in every arithmetic it raises as soon as
    the computed [1 - a] is negative. *)
Theorem gcd_raises_on_antipodes :
  hav_a 8 (-136) (-8) 44 = 1%R
  /\ arith_laws cos_up
  /\ gcd_fl cos_up (Some 8%R) (Some (-136)%R) (Some (-8)%R) (Some 44%R)
     = Raise ValueError
  /\ forall (M : arith) (o_lat o_lon d_lat d_lon : R),
       (f_sub M 1 (a_fl M o_lat o_lon d_lat d_lon) < 0)%R ->
       gcd_fl M (Some o_lat) (Some o_lon) (Some d_lat) (Some d_lon)
       = Raise ValueError.
Proof.
  split; [apply hav_a_antipodes|]. split; [apply cos_up_laws|].
  split; [apply gcd_cos_up_antipodes|].
  intros M o_lat o_lon d_lat d_lon H. rewrite gcd_fl_cases.
  destruct (Rlt_dec (a_fl M o_lat o_lon d_lat d_lon) 0); [reflexivity|].
  destruct (Rlt_dec (f_sub M 1 (a_fl M o_lat o_lon d_lat d_lon)) 0);
    [reflexivity|contradiction].
Qed.

(** C7. When any of the four arguments is missing, whatever the others are,
    the distance function returns 0 and raises nothing. *)
Theorem gcd_missing_is_zero (o_lat o_lon d_lat d_lon : cell) :
  isnull o_lat || isnull o_lon || isnull d_lat || isnull d_lon = true ->
  gcd o_lat o_lon d_lat d_lon = Ok 0%R.
Proof.
  destruct o_lat, o_lon, d_lat, d_lon; simpl; intros H;
    try discriminate; reflexivity.
Qed.

(** C7, with the origin latitude and the destination latitude missing. *)
Lemma gcd_missing_is_zero_witness :
  gcd None (Some 1%R) None (Some 2%R) = Ok 0%R.
Proof. apply gcd_missing_is_zero. reflexivity. Defined.

(** ** The route fetcher *)


Section FetchFacts.
Variable json_loads : string -> option pyobj.
Variable py_str : pyobj -> string.




Lemma get_nodes_shape (o_lat o_lon d_lat d_lon : R) (r : response)
  (l : list (RoutePoint pyobj)) :
  get_nodes json_loads py_str o_lat o_lon d_lat d_lon r = Ok (Some l) ->
  exists mid,
    l = mkPoint "start" (PFloat o_lat) (PFloat o_lon)
        :: mid ++ [mkPoint "end" (PFloat d_lat) (PFloat d_lon)].
Proof.
  unfold get_nodes. intros H.
  destruct (negb (status_code r =? 200)%Z); [discriminate|].
  destruct (json_loads (text r)); cbn [bind] in H; [|discriminate].
  bind_inv H. injection H as <-. eexists. reflexivity.
Qed.


End FetchFacts.

(** The fetcher on three responses: a route of one step with one
    intersection at [lon, lat] = [-84, 33]; a status of 404; a body whose
    first route has no leg. *)
Example get_nodes_sample (py_str : pyobj -> string) :
  let body :=
    PDict [("routes"%string,
            PList [PDict [("legs"%string,
              PList [PDict [("steps"%string,
                PList [PDict [("intersections"%string,
                  PList [PDict [("location"%string,
                    PList [PFloat (-84); PFloat 33])]])]])]])]])] in
  get_nodes (fun _ => Some body) py_str 1 2 3 4 (mkResponse 200 "{...}")
  = Ok (Some [mkPoint "start" (PFloat 1) (PFloat 2);
              mkPoint (py_str (PFloat 33) ++ "|" ++ py_str (PFloat (-84)))%string
                      (PFloat 33) (PFloat (-84));
              mkPoint "end" (PFloat 3) (PFloat 4)]).
Proof. reflexivity. Qed.

Example get_nodes_failures (py_str : pyobj -> string) :
  get_nodes (fun _ => Some (PDict [])) py_str 1 2 3 4 (mkResponse 404 "Not Found")
  = Raise TypeError
  /\ get_nodes (fun _ => None) py_str 1 2 3 4 (mkResponse 200 "<html>")
     = Raise JSONDecodeError
  /\ get_nodes (fun _ => Some (PDict [("routes"%string, PList [PDict []])]))
       py_str 1 2 3 4 (mkResponse 200 "{...}")
     = Raise KeyError
  /\ get_nodes (fun _ => Some (PDict [("routes"%string, PList [])]))
       py_str 1 2 3 4 (mkResponse 200 "{...}")
     = Raise IndexError.
Proof. repeat split. Qed.

(** ** The deduplicator *)

Section DedupFacts.
Context {C : Type}.
#[local] Abbreviation node := (RoutePoint C).

Lemma lastn_snoc {A} (l : list A) (x : A) :
  5 <= length l -> lastn 5 (l ++ [x]) = tl (lastn 5 l) ++ [x].
Proof.
  intros Hl. unfold lastn. rewrite length_app. simpl.
  replace (length l + 1 - 5) with (S (length l - 5)) by lia.
  rewrite skipn_app.
  replace (S (length l - 5) - length l) with 0 by lia. simpl.
  f_equal.
  generalize (length l - 5). clear Hl.
  induction l as [|a l IH]; intros [|k]; simpl; auto.
Qed.

Lemma window_of_snoc (kept : list node) (x : node) :
  window_of (kept ++ [x]) = tl (window_of kept) ++ [PStr (node_id x)].
Proof.
  unfold window_of. rewrite !map_app, app_assoc. cbn [map].
  apply lastn_snoc. rewrite length_app. simpl. lia.
Qed.

(** The second component of the loop state is always the window of the
    first. *)
Lemma dedup_loop_window (xs : list node) (kept : list node) :
  snd (dedup_loop xs (kept, window_of kept))
  = window_of (fst (dedup_loop xs (kept, window_of kept))).
Proof.
  revert kept. induction xs as [|x xs IH]; intros kept; simpl.
  - reflexivity.
  - destruct (negb (py_in (node_id x) (window_of kept))).
    + rewrite <- window_of_snoc. apply IH.
    + apply IH.
Qed.

Lemma dedupe_snoc (xs : list node) (x : node) :
  dedupe (xs ++ [x])
  = if py_in (node_id x) (window_of (dedupe xs))
    then dedupe xs else dedupe xs ++ [x].
Proof.
  unfold dedupe, dedup_loop. rewrite fold_left_app. simpl.
  pose proof (dedup_loop_window xs []) as Hw.
  unfold dedup_loop in Hw. change (window_of []) with initial_window in Hw.
  destruct (fold_left dedup_step xs ([], initial_window)) as [k w].
  simpl in *. subst w.
  destruct (py_in (node_id x) (window_of k)); reflexivity.
Qed.

Lemma in_skipn {A} (a : A) (n : nat) (l : list A) :
  In a (skipn n l) -> In a l.
Proof.
  intros H. rewrite <- (firstn_skipn n l). apply in_or_app. now right.
Qed.

Lemma py_in_spec (s : string) (w : list pyobj) :
  py_in s w = true <-> In (PStr s) w.
Proof.
  unfold py_in. rewrite existsb_exists. split.
  - intros [o [Hin Heq]]. destruct o; simpl in Heq; try discriminate.
    apply String.eqb_eq in Heq. subst. exact Hin.
  - intros Hin. exists (PStr s). split; [exact Hin|].
    simpl. apply String.eqb_refl.
Qed.

(** The sentinels match no id: being in the window is being among the five
    most recently kept ids. *)
Lemma in_window_of (s : string) (kept : list node) :
  In (PStr s) (window_of kept) <-> In s (recent5 kept).
Proof.
  unfold window_of, recent5, lastn.
  set (ids := map (@node_id C) kept).
  rewrite length_app, length_map. simpl length.
  replace (5 + length ids - 5) with (length ids) by lia.
  rewrite skipn_app. simpl length.
  destruct (le_lt_dec 5 (length ids)) as [Hge|Hlt].
  - rewrite (skipn_all2 initial_window) by (simpl; lia).
    simpl. rewrite skipn_map, in_map_iff. split.
    + intros [t [Heq Hin]]. injection Heq as ->. exact Hin.
    + intros Hin. exists s. auto.
  - replace (length ids - 5) with 0 by lia. simpl skipn at 2 3.
    rewrite in_app_iff, in_map_iff. split.
    + intros [Hs|[t [Heq Hin]]].
      * apply in_skipn in Hs. simpl in Hs.
        repeat (destruct Hs as [Hs|Hs]; [discriminate|]). contradiction.
      * injection Heq as ->. exact Hin.
    + intros Hin. right. exists s. auto.
Qed.

Lemma dedupe_keeps (xs : list node) (x : node) :
  ~ In (node_id x) (recent5 (dedupe xs)) ->
  dedupe (xs ++ [x]) = dedupe xs ++ [x].
Proof.
  intros Hn. rewrite dedupe_snoc.
  destruct (py_in (node_id x) (window_of (dedupe xs))) eqn:E; [|reflexivity].
  apply py_in_spec, in_window_of in E. contradiction.
Qed.

Lemma dedupe_drops (xs : list node) (x : node) :
  In (node_id x) (recent5 (dedupe xs)) ->
  dedupe (xs ++ [x]) = dedupe xs.
Proof.
  intros Hin. rewrite dedupe_snoc.
  destruct (py_in (node_id x) (window_of (dedupe xs))) eqn:E; [reflexivity|].
  apply in_window_of, py_in_spec in Hin. congruence.
Qed.

(** Running the loop on what it kept, from the same window, keeps
    everything. *)
Lemma dedup_loop_kept (xs : list node) :
  forall (c c0 : list node) (w : list pyobj),
  exists k w',
    dedup_loop xs (c, w) = (c ++ k, w')
    /\ dedup_loop k (c0, w) = (c0 ++ k, w').
Proof.
  induction xs as [|x xs IH]; intros c c0 w.
  - exists [], w. simpl. now rewrite !app_nil_r.
  - simpl. destruct (negb (py_in (node_id x) w)) eqn:E.
    + destruct (IH (c ++ [x]) (c0 ++ [x]) (tl w ++ [PStr (node_id x)]))
        as [k [w' [H1 H2]]].
      exists (x :: k), w'. simpl. rewrite E.
      rewrite H1, H2, <- !app_assoc. auto.
    + apply IH.
Qed.

End DedupFacts.

(** C2. The deduplicator keeps a point exactly when its id is absent from
    the window of the five most recently kept ids; the window starts with
    sentinels that match no id and changes only when a point is kept.
    With a, b, c of distinct ids, dedupe [a,b,a,c,a] = [a,b,c]; with six
    distinct ids, dedupe [a,b,c,d,e,f,a] keeps the final a. *)
Theorem dedupe_window_spec (C : Type) :
  @dedupe C [] = []
  /\ (forall (xs : list (RoutePoint C)) (x : RoutePoint C),
        (~ In (node_id x) (recent5 (dedupe xs)) ->
         dedupe (xs ++ [x]) = dedupe xs ++ [x])
        /\ (In (node_id x) (recent5 (dedupe xs)) ->
            dedupe (xs ++ [x]) = dedupe xs)
        /\ snd (dedup_loop xs ([], initial_window)) = window_of (dedupe xs)
        /\ (forall s, In (PStr s) (window_of (dedupe xs))
                      <-> In s (recent5 (dedupe xs))))
  /\ (forall a b c a' a'' : RoutePoint C,
        NoDup (map (@node_id C) [a; b; c]) ->
        node_id a' = node_id a -> node_id a'' = node_id a ->
        dedupe [a; b; a'; c; a''] = [a; b; c])
  /\ (forall a b c d e f a' : RoutePoint C,
        NoDup (map (@node_id C) [a; b; c; d; e; f]) ->
        node_id a' = node_id a ->
        dedupe [a; b; c; d; e; f; a'] = [a; b; c; d; e; f; a']).
Proof.
  split; [reflexivity|]. split; [|split].
  - intros xs x. split; [apply dedupe_keeps|]. split; [apply dedupe_drops|].
    split; [|intros s; apply in_window_of].
    apply (dedup_loop_window xs []).
  - intros a b c a' a'' Hnd Ha' Ha''. simpl in Hnd. neq_facts.
    destruct a' as [i' la' lo'], a'' as [i'' la'' lo'']. simpl in Ha', Ha''.
    subst i' i''. run_dedupe. reflexivity.
  - intros a b c d e f a' Hnd Ha'. simpl in Hnd. neq_facts.
    destruct a' as [i' la' lo']. simpl in Ha'. subst i'.
    run_dedupe. reflexivity.
Qed.

(** C2, at a concrete input: ids "A" to "F" on integer coordinates. *)
Lemma dedupe_window_spec_witness :
  let P s := mkPoint s 0%Z 0%Z in
  dedupe [P "A"; P "B"; P "A"; P "C"; P "A"]%string
    = [P "A"; P "B"; P "C"]%string
  /\ dedupe [P "A"; P "B"; P "C"; P "D"; P "E"; P "F"; P "A"]%string
     = [P "A"; P "B"; P "C"; P "D"; P "E"; P "F"; P "A"]%string.
Proof.
  intros P. split.
  - apply (proj1 (proj2 (proj2 (dedupe_window_spec Z)))); try reflexivity.
    simpl. repeat constructor; simpl; intuition discriminate.
  - apply (proj2 (proj2 (proj2 (dedupe_window_spec Z)))); try reflexivity.
    simpl. repeat constructor; simpl; intuition discriminate.
Defined.

(** C5. The deduplicator is idempotent. *)
Theorem dedupe_idempotent (C : Type) (x : list (RoutePoint C)) :
  dedupe (dedupe x) = dedupe x.
Proof.
  unfold dedupe.
  destruct (dedup_loop_kept x [] [] initial_window) as [k [w' [H1 H2]]].
  rewrite H1. simpl. rewrite H2. reflexivity.
Qed.

(** ** The distance annotation *)

Lemma fillna_map_Some (v : R) (l : list R) : fillna v (map Some l) = l.
Proof.
  unfold fillna. rewrite map_map. simpl. apply map_id.
Qed.

Lemma fillna_app (v : R) (l1 l2 : list cell) :
  fillna v (l1 ++ l2) = fillna v l1 ++ fillna v l2.
Proof. apply map_app. Qed.

Lemma fillna_cumsum_from (add : R -> R -> R) (acc : R) (l : list R) :
  fillna 0 (cumsum_from add (Some acc) (map Some l)) = running add acc l.
Proof.
  revert acc. induction l as [|x l IH]; intros acc; simpl.
  - reflexivity.
  - f_equal. apply IH.
Qed.

Lemma fillna_cumsum (add : R -> R -> R) (l : list R) :
  fillna 0 (cumsum add (map Some l)) = accumulate add l.
Proof.
  destruct l as [|x l]; [reflexivity|].
  unfold cumsum. cbn [map cumsum_from accumulate fillna].
  f_equal. apply fillna_cumsum_from.
Qed.

Lemma length_running (add : R -> R -> R) (acc : R) (l : list R) :
  length (running add acc l) = length l.
Proof.
  revert acc. induction l; intros acc; simpl; auto.
Qed.

Lemma length_accumulate (add : R -> R -> R) (l : list R) :
  length (accumulate add l) = length l.
Proof.
  destruct l; simpl; [reflexivity|]. now rewrite length_running.
Qed.

Lemma length_to_next (ds : list R) : length (to_next ds) = length ds.
Proof.
  destruct ds; simpl; [reflexivity|]. rewrite length_app. simpl. lia.
Qed.

Lemma running_last (add : R -> R -> R) (l : list R) :
  forall acc, l <> [] ->
  nth_error (running add acc l) (length l - 1) = Some (fold_left add l acc).
Proof.
  induction l as [|x l IH]; intros acc Hne; [congruence|].
  destruct l as [|y l].
  - reflexivity.
  - specialize (IH (add acc x)). simpl in *.
    rewrite Nat.sub_0_r in IH. apply IH. discriminate.
Qed.

Lemma accumulate_last (add : R -> R -> R) (x : R) (l : list R) :
  nth_error (accumulate add (x :: l)) (length l) = Some (fold_left add l x).
Proof.
  destruct l as [|y l]; [reflexivity|].
  cbn [accumulate length nth_error].
  pose proof (@running_last add (y :: l) x) as H.
  cbn [length] in H. rewrite Nat.sub_succ, Nat.sub_0_r in H.
  apply H. discriminate.
Qed.

Lemma running_step (add : R -> R -> R) (l : list R) :
  forall (acc : R) (i : nat) (c c' x : R),
  nth_error (running add acc l) i = Some c ->
  nth_error (running add acc l) (S i) = Some c' ->
  nth_error l (S i) = Some x -> c' = add c x.
Proof.
  induction l as [|y l IH]; intros acc i c c' x Hc Hc' Hx.
  - destruct i; discriminate.
  - destruct i as [|i]; cbn [running nth_error] in Hc, Hc', Hx.
    + destruct l as [|z l]; [discriminate|]. simpl in *. congruence.
    + eapply IH; eassumption.
Qed.

Lemma accumulate_step (add : R -> R -> R) (l : list R) :
  forall (i : nat) (c c' x : R),
  nth_error (accumulate add l) i = Some c ->
  nth_error (accumulate add l) (S i) = Some c' ->
  nth_error l (S i) = Some x -> c' = add c x.
Proof.
  destruct l as [|y l]; intros i c c' x Hc Hc' Hx.
  - destruct i; discriminate.
  - destruct i as [|i]; cbn [accumulate nth_error] in Hc, Hc', Hx.
    + destruct l as [|z l]; [discriminate|]. simpl in *. congruence.
    + eapply running_step; eassumption.
Qed.

(** The columns of a frame built from four lists of one length. *)
Lemma frame_rows_columns (nodes : list (RoutePoint R)) :
  forall a b c : list R,
  length a = length nodes -> length b = length nodes ->
  length c = length nodes ->
  map (@point R) (frame_rows nodes a b c) = nodes
  /\ map (@dist_from_prev R) (frame_rows nodes a b c) = a
  /\ map (@dist_to_next R) (frame_rows nodes a b c) = b
  /\ map (@cuml_dist R) (frame_rows nodes a b c) = c.
Proof.
  unfold frame_rows.
  induction nodes as [|p t IH]; intros [|x a] [|y b] [|z c] Ha Hb Hc;
    try discriminate; simpl in *.
  - auto.
  - destruct (IH a b c) as [H1 [H2 [H3 H4]]]; try congruence.
    rewrite H1, H2, H3, H4. auto.
Qed.

Lemma neighbours_cons {A} (x : A) (l : list A) (p q : A) :
  neighbours (x :: l) p q
  <-> (p = x /\ nth_error l 0 = Some q) \/ neighbours l p q.
Proof.
  unfold neighbours. split.
  - intros [[|i] [H1 H2]]; simpl in *.
    + left. split; congruence.
    + right. eauto.
  - intros [[-> H]|[i [H1 H2]]].
    + exists 0. auto.
    + exists (S i). auto.
Qed.

Section AnnotateFacts.
Variable M : arith.
Local Open Scope R_scope.

#[local] Abbreviation gcd_of p q :=
  (gcd_fl M (Some (node_lat p)) (Some (node_lon p))
            (Some (node_lat q)) (Some (node_lon q))).

(** The rows given to [gcd] after the first one pair every node with its
    predecessor. *)
Lemma mapM_gcd_after (p : RoutePoint R) (t : list (RoutePoint R)) :
  mapM (fun '((prev_lat, prev_lon), (node_lat, node_lon)) =>
          gcd_fl M prev_lat prev_lon node_lat node_lon)
       (gcd_rows
          (removelast (map (fun p => Some (node_lat p)) (p :: t)))
          (removelast (map (fun p => Some (node_lon p)) (p :: t)))
          (map (fun p => Some (node_lat p)) t)
          (map (fun p => Some (node_lon p)) t))
  = gcd_after M p t.
Proof.
  revert p. induction t as [|q t IH]; intros p.
  - reflexivity.
  - specialize (IH q). unfold gcd_rows in *.
    cbn [map removelast combine mapM gcd_after] in *.
    destruct (gcd_of p q); [|reflexivity].
    cbn [bind]. now rewrite IH.
Qed.

Lemma mapM_gcd_rows (nodes : list (RoutePoint R)) :
  mapM (fun '((prev_lat, prev_lon), (node_lat, node_lon)) =>
          gcd_fl M prev_lat prev_lon node_lat node_lon)
       (gcd_rows
          (shift (map (fun p => Some (node_lat p)) nodes))
          (shift (map (fun p => Some (node_lon p)) nodes))
          (map (fun p => Some (node_lat p)) nodes)
          (map (fun p => Some (node_lon p)) nodes))
  = gcd_from_prev M nodes.
Proof.
  destruct nodes as [|p t]; [reflexivity|].
  pose proof (mapM_gcd_after p t) as H. unfold gcd_rows in *.
  cbn [map shift combine mapM gcd_from_prev] in *.
  change (gcd_fl M None None (Some (node_lat p)) (Some (node_lon p)))
    with (@Ok R 0).
  cbn [bind]. unfold cell in *. now rewrite H.
Qed.

(** What the annotation computes, column by column. *)
Lemma annotate_closed_form (nodes : list (RoutePoint R)) :
  annotate M nodes
  = (ds <- gcd_from_prev M nodes ;;
     Ok (frame_rows nodes ds (to_next ds) (accumulate (f_add M) ds))).
Proof.
  unfold annotate. rewrite mapM_gcd_rows.
  destruct (gcd_from_prev M nodes) as [ds|e]; [|reflexivity].
  cbn [bind]. f_equal. f_equal.
  - destruct ds as [|d ds]; [reflexivity|].
    cbn [map shift_up to_next].
    rewrite fillna_app, fillna_map_Some. reflexivity.
  - apply fillna_cumsum.
Qed.

Lemma length_gcd_after (t : list (RoutePoint R)) :
  forall p ds, gcd_after M p t = Ok ds -> length ds = length t.
Proof.
  induction t as [|q t IH]; intros p ds H; cbn [gcd_after] in H.
  - now injection H as <-.
  - bind_inv H. injection H as <-. simpl. f_equal. eapply IH; eassumption.
Qed.

Lemma length_gcd_from_prev (nodes : list (RoutePoint R)) (ds : list R) :
  gcd_from_prev M nodes = Ok ds -> length ds = length nodes.
Proof.
  destruct nodes as [|p t]; simpl; intros H.
  - now injection H as <-.
  - bind_inv H. injection H as <-. simpl. f_equal.
    eapply length_gcd_after; eassumption.
Qed.

(** The columns of a frame the annotation returns. *)
Lemma annotate_columns (nodes : list (RoutePoint R))
  (rows : list (AnnotatedNode R)) :
  annotate M nodes = Ok rows ->
  exists ds,
    gcd_from_prev M nodes = Ok ds
    /\ map (@point R) rows = nodes
    /\ map (@dist_from_prev R) rows = ds
    /\ map (@dist_to_next R) rows = to_next ds
    /\ map (@cuml_dist R) rows = accumulate (f_add M) ds.
Proof.
  rewrite annotate_closed_form. intros H. bind_inv H. injection H as <-.
  exists a. split; [reflexivity|].
  pose proof (length_gcd_from_prev _ E) as Hlen.
  apply frame_rows_columns.
  - exact Hlen.
  - now rewrite length_to_next.
  - now rewrite length_accumulate.
Qed.

Lemma annotate_length (nodes : list (RoutePoint R))
  (rows : list (AnnotatedNode R)) :
  annotate M nodes = Ok rows -> length rows = length nodes.
Proof.
  intros H. apply annotate_columns in H. destruct H as [ds [_ [Hp _]]].
  rewrite <- Hp. now rewrite length_map.
Qed.

(** Every distance after the first is what [gcd] returns on a node and the
    node before it. *)
Lemma gcd_after_nth (t : list (RoutePoint R)) :
  forall (p : RoutePoint R) (ds : list R),
  gcd_after M p t = Ok ds ->
  forall (i : nat) (a b : RoutePoint R) (d : R),
  nth_error (p :: t) i = Some a -> nth_error t i = Some b ->
  nth_error ds i = Some d -> gcd_of a b = Ok d.
Proof.
  induction t as [|q t IH]; intros p ds H i a b d Ha Hb Hd.
  - destruct i; discriminate.
  - cbn [gcd_after] in H. bind_inv H. injection H as <-.
    destruct i as [|i]; cbn [nth_error] in Ha, Hb, Hd.
    + congruence.
    + eapply IH; eassumption.
Qed.

(** The calls all return exactly when [gcd] returns on every two
    neighbours. *)
Lemma gcd_after_returns (t : list (RoutePoint R)) :
  forall p : RoutePoint R,
  (exists ds, gcd_after M p t = Ok ds)
  <-> (forall a b, neighbours (p :: t) a b -> gcd_returns M a b).
Proof.
  induction t as [|q t IH]; intros p.
  - split; [|intros _; now exists []].
    intros _ a b [i [_ H]]. destruct i; discriminate.
  - split.
    + intros [ds H] a b Hn. cbn [gcd_after] in H. bind_inv H.
      apply neighbours_cons in Hn. destruct Hn as [[-> Hq]|Hn].
      * cbn [nth_error] in Hq. injection Hq as <-. now exists a0.
      * apply (proj1 (IH q)); eauto.
    + intros H.
      destruct (H p q) as [d Hd]; [exists 0%nat; auto|].
      destruct (proj2 (IH q)) as [ds Hds].
      { intros a b Hn. apply H. apply neighbours_cons. now right. }
      exists (d :: ds). cbn [gcd_after]. rewrite Hd. cbn [bind].
      now rewrite Hds.
Qed.

Lemma annotate_returns (nodes : list (RoutePoint R)) :
  (exists rows, annotate M nodes = Ok rows)
  <-> (forall a b, neighbours nodes a b -> gcd_returns M a b).
Proof.
  rewrite annotate_closed_form. destruct nodes as [|p t].
  - split; [|intros _; eexists; reflexivity].
    intros _ a b [i [H _]]. destruct i; discriminate.
  - rewrite <- gcd_after_returns. cbn [gcd_from_prev]. split.
    + intros [rows H]. bind_inv H. bind_inv E. eauto.
    + intros [ds H]. rewrite H. cbn [bind]. eauto.
Qed.

Hypothesis laws : arith_laws M.

Lemma gcd_after_nonneg (t : list (RoutePoint R)) :
  forall p ds, gcd_after M p t = Ok ds ->
  Forall (fun d => 0 <= d /\ is_double M d) ds.
Proof.
  induction t as [|q t IH]; intros p ds H; cbn [gcd_after] in H.
  - injection H as <-. constructor.
  - bind_inv H. injection H as <-. constructor.
    + split; [eapply (gcd_fl_nonneg laws)|eapply (gcd_fl_double laws)];
        eassumption.
    + eapply IH; eassumption.
Qed.

(** The distances are non-negative doubles. *)
Lemma gcd_from_prev_nonneg (nodes : list (RoutePoint R)) (ds : list R) :
  gcd_from_prev M nodes = Ok ds ->
  Forall (fun d => 0 <= d /\ is_double M d) ds.
Proof.
  destruct nodes as [|p t]; simpl; intros H.
  - injection H as <-. constructor.
  - bind_inv H. injection H as <-. constructor.
    + split; [lra|now apply (zero_is_double laws)].
    + eapply gcd_after_nonneg; eassumption.
Qed.

(** Adding a non-negative number to a double gives no less. *)
Lemma f_add_ge (c d : R) : is_double M c -> 0 <= d -> c <= f_add M c d.
Proof.
  intros Hc Hd. unfold f_add. rewrite <- Hc at 1.
  apply (rnd_mono laws). lra.
Qed.

Lemma running_ge (l : list R) :
  Forall (fun d => 0 <= d /\ is_double M d) l ->
  forall acc i x,
    is_double M acc ->
    nth_error (running (f_add M) acc l) i = Some x -> acc <= x.
Proof.
  induction 1 as [|y l [Hy _] Hl IH]; intros acc i x Hacc Hi.
  - destruct i; discriminate.
  - pose proof (f_add_ge Hacc Hy) as Hge.
    destruct i as [|i]; simpl in Hi.
    + injection Hi as <-. exact Hge.
    + apply IH in Hi; [lra|]. apply (rnd_is_double laws).
Qed.

Lemma running_mono (l : list R) :
  Forall (fun d => 0 <= d /\ is_double M d) l ->
  forall acc i x x',
    is_double M acc ->
    nth_error (running (f_add M) acc l) i = Some x ->
    nth_error (running (f_add M) acc l) (S i) = Some x' -> x <= x'.
Proof.
  induction 1 as [|y l Hy Hl IH]; intros acc i x x' Hacc Hi Hi'.
  - destruct i; discriminate.
  - destruct i as [|i]; cbn [running nth_error] in Hi, Hi'.
    + injection Hi as <-.
      apply (@running_ge l Hl (f_add M acc y) 0%nat x');
        [apply (rnd_is_double laws)|exact Hi'].
    + eapply IH; [apply (rnd_is_double laws)| |]; eassumption.
Qed.

Lemma accumulate_ge (l : list R) :
  Forall (fun d => 0 <= d /\ is_double M d) l ->
  forall i x, nth_error (accumulate (f_add M) l) i = Some x -> 0 <= x.
Proof.
  intros H i x Hi. destruct H as [|y l [Hy Hd] Hl].
  - destruct i; discriminate.
  - destruct i as [|i]; simpl in Hi.
    + now injection Hi as <-.
    + apply (running_ge Hl) in Hi; [lra|exact Hd].
Qed.

Lemma accumulate_mono (l : list R) :
  Forall (fun d => 0 <= d /\ is_double M d) l ->
  forall i x x',
    nth_error (accumulate (f_add M) l) i = Some x ->
    nth_error (accumulate (f_add M) l) (S i) = Some x' -> x <= x'.
Proof.
  intros H i x x' Hi Hi'. destruct H as [|y l [Hy Hd] Hl].
  - destruct i; discriminate.
  - destruct i as [|i]; cbn [accumulate nth_error] in Hi, Hi'.
    + injection Hi as <-.
      apply (@running_ge l Hl y 0%nat x'); [exact Hd|exact Hi'].
    + eapply (running_mono Hl); eassumption.
Qed.

End AnnotateFacts.

Lemma length_dists_after (p : RoutePoint R) (t : list (RoutePoint R)) :
  length (dists_after p t) = length t.
Proof.
  revert p. induction t; intros p; simpl; auto.
Qed.

(** On a single node every distance is 0 in every arithmetic: the previous
    coordinates are missing, so [gcd] returns 0 without computing. *)
Example annotate_single (M : arith) (p : RoutePoint R) :
  annotate M [p] = Ok [mkRow p 0 0 0]%R.
Proof. reflexivity. Qed.

(** On two nodes and exact reals the one distance is the haversine
    distance between them. *)
Lemma annotate_exact_pair (p q : RoutePoint R) :
  let d := hav_dist (node_lat p) (node_lon p) (node_lat q) (node_lon q) in
  annotate exact [p; q] = Ok [mkRow p 0 d 0; mkRow q d 0 (0 + d)]%R.
Proof.
  intros d. rewrite annotate_closed_form. cbn [gcd_from_prev gcd_after].
  rewrite gcd_fl_exact, gcd_value. reflexivity.
Qed.

(** In the arithmetic [cos_up] the annotation of the antipodal neighbours
    (8, -136) and (-8, 44) raises: no frame is built. *)
Example annotate_antipodes :
  annotate cos_up [mkPoint "a" 8 (-136); mkPoint "b" (-8) 44]%R
  = Raise ValueError.
Proof.
  rewrite annotate_closed_form. cbn [gcd_from_prev gcd_after].
  cbn [node_lat node_lon].
  now rewrite gcd_cos_up_antipodes.
Qed.

(** C1. The annotation returns a frame exactly when [gcd] returns on every
    two neighbours.  A frame it returns has the given nodes as its points,
    and its three distance fields agree: the distance to the next node at
    position i is the distance from the previous node at position i+1, the
    first node has distance 0 from its predecessor, the last node has
    distance 0 to its successor, and the cumulative distance of the last
    node is the sum of all distances from the previous node, added from the
    first to the last. *)
Theorem annotate_consistent (M : arith) (nodes : list (RoutePoint R)) :
  arith_laws M ->
  ((exists rows, annotate M nodes = Ok rows)
   <-> (forall p q, neighbours nodes p q -> gcd_returns M p q))
  /\ forall rows : list (AnnotatedNode R),
       annotate M nodes = Ok rows ->
       map (@point R) rows = nodes
       /\ (forall i r r',
             nth_error rows i = Some r -> nth_error rows (S i) = Some r' ->
             dist_to_next r = dist_from_prev r')
       /\ (forall r, nth_error rows 0 = Some r -> dist_from_prev r = 0%R)
       /\ (forall r, nth_error rows (length rows - 1) = Some r ->
             dist_to_next r = 0%R
             /\ cuml_dist r = py_sum M (map (@dist_from_prev R) rows)).
Proof.
  intros laws. split; [apply annotate_returns|].
  intros rows Ha.
  destruct (annotate_columns _ _ Ha) as [ds [Hg [Hp [Hf [Hn Hc]]]]].
  assert (Hlen : length rows = length ds)
    by (rewrite <- Hf; now rewrite length_map).
  assert (Hds : ds = [] \/ exists ds', ds = 0%R :: ds').
  { destruct nodes as [|p t]; simpl in Hg.
    - left. now injection Hg as <-.
    - right. bind_inv Hg. injection Hg as <-. eauto. }
  split; [exact Hp|]. split; [|split].
  - intros i r r' Hi Hi'.
    apply (map_nth_error (@dist_to_next R)) in Hi.
    apply (map_nth_error (@dist_from_prev R)) in Hi'.
    rewrite Hn in Hi. rewrite Hf in Hi'.
    assert (Hlt : S i < length ds) by (apply nth_error_Some; congruence).
    destruct ds as [|d ds']; [simpl in Hlt; lia|].
    simpl in Hi, Hi', Hlt.
    rewrite nth_error_app1 in Hi by lia. congruence.
  - intros r H0. apply (map_nth_error (@dist_from_prev R)) in H0.
    rewrite Hf in H0. destruct Hds as [->|[ds' ->]]; [discriminate|].
    simpl in H0. congruence.
  - intros r Hl.
    pose proof (map_nth_error (@dist_to_next R) _ _ Hl) as H1.
    pose proof (map_nth_error (@cuml_dist R) _ _ Hl) as H2.
    rewrite Hn in H1. rewrite Hc in H2. rewrite Hf. rewrite Hlen in *.
    destruct Hds as [->|[ds' ->]]; [destruct rows; discriminate|].
    cbn [length] in H1, H2. rewrite Nat.sub_succ, Nat.sub_0_r in H1, H2.
    split.
    + cbn [to_next] in H1.
      rewrite nth_error_app2 in H1 by lia.
      rewrite Nat.sub_diag in H1. simpl in H1. congruence.
    + rewrite accumulate_last in H2. injection H2 as <-.
      unfold py_sum. cbn [fold_left].
      replace (f_add M 0 0) with 0%R; [reflexivity|].
      unfold f_add. now rewrite Rplus_0_l, (rnd_0 laws).
Qed.

(** C1, on two nodes and exact reals. *)
Lemma annotate_consistent_witness :
  let nodes := [mkPoint "start" 33 (-84); mkPoint "end" 34 (-85)]%R in
  ((exists rows, annotate exact nodes = Ok rows)
   <-> (forall p q, neighbours nodes p q -> gcd_returns exact p q))
  /\ forall rows : list (AnnotatedNode R),
       annotate exact nodes = Ok rows ->
       map (@point R) rows = nodes
       /\ (forall i r r',
             nth_error rows i = Some r -> nth_error rows (S i) = Some r' ->
             dist_to_next r = dist_from_prev r')
       /\ (forall r, nth_error rows 0 = Some r -> dist_from_prev r = 0%R)
       /\ (forall r, nth_error rows (length rows - 1) = Some r ->
             dist_to_next r = 0%R
             /\ cuml_dist r = py_sum exact (map (@dist_from_prev R) rows)).
Proof.
  intros nodes. apply (@annotate_consistent exact nodes). exact exact_laws.
Defined.

(** C8. In a frame the annotation returns, the cumulative distance is
    non-negative at every position and never decreases from one position to
    the next. *)
Theorem cuml_dist_nonneg_monotone (M : arith) (nodes : list (RoutePoint R))
  (rows : list (AnnotatedNode R)) :
  arith_laws M ->
  annotate M nodes = Ok rows ->
  (forall i r, nth_error rows i = Some r -> (0 <= cuml_dist r)%R)
  /\ (forall i r r',
        nth_error rows i = Some r -> nth_error rows (S i) = Some r' ->
        (cuml_dist r <= cuml_dist r')%R).
Proof.
  intros laws Ha.
  destruct (annotate_columns _ _ Ha) as [ds [Hg [_ [_ [_ Hc]]]]].
  pose proof (gcd_from_prev_nonneg laws _ Hg) as Hnn.
  split.
  - intros i r Hi. apply (map_nth_error (@cuml_dist R)) in Hi.
    rewrite Hc in Hi. eapply (accumulate_ge laws); eassumption.
  - intros i r r' Hi Hi'.
    apply (map_nth_error (@cuml_dist R)) in Hi, Hi'. rewrite Hc in Hi, Hi'.
    eapply (accumulate_mono laws); eassumption.
Qed.

(** C8, on two nodes and exact reals. *)
Lemma cuml_dist_nonneg_monotone_witness :
  let d := hav_dist 33 (-84) 34 (-85) in
  let rows := [mkRow (mkPoint "start" 33 (-84)) 0 d 0;
               mkRow (mkPoint "end" 34 (-85)) d 0 (0 + d)]%R in
  (forall i r, nth_error rows i = Some r -> (0 <= cuml_dist r)%R)
  /\ (forall i r r',
        nth_error rows i = Some r -> nth_error rows (S i) = Some r' ->
        (cuml_dist r <= cuml_dist r')%R).
Proof.
  intros d rows.
  apply (@cuml_dist_nonneg_monotone exact
           [mkPoint "start" 33 (-84); mkPoint "end" 34 (-85)]%R rows).
  - exact exact_laws.
  - apply (annotate_exact_pair (mkPoint "start" 33 (-84))
                               (mkPoint "end" 34 (-85)))%R.
Defined.

(** C10. A frame the annotation returns has as many rows as there are
    points, and the row at each position holds the point given at that
    position: same id, latitude and longitude. *)
Theorem annotate_preserves_points (M : arith) (nodes : list (RoutePoint R))
  (rows : list (AnnotatedNode R)) :
  annotate M nodes = Ok rows ->
  length rows = length nodes
  /\ map (@point R) rows = nodes
  /\ (forall i r p,
        nth_error rows i = Some r -> nth_error nodes i = Some p ->
        node_id (point r) = node_id p
        /\ node_lat (point r) = node_lat p
        /\ node_lon (point r) = node_lon p).
Proof.
  intros Ha.
  destruct (annotate_columns _ _ Ha) as [ds [_ [Hp _]]].
  split; [rewrite <- Hp; now rewrite length_map|].
  split; [exact Hp|].
  intros i r p Hi Hn. apply (map_nth_error (@point R)) in Hi.
  rewrite Hp in Hi. assert (point r = p) as -> by congruence. auto.
Qed.

(** C10, on two nodes and exact reals. *)
Lemma annotate_preserves_points_witness :
  let nodes := [mkPoint "start" 33 (-84); mkPoint "end" 34 (-85)]%R in
  let d := hav_dist 33 (-84) 34 (-85) in
  let rows := [mkRow (mkPoint "start" 33 (-84)) 0 d 0;
               mkRow (mkPoint "end" 34 (-85)) d 0 (0 + d)]%R in
  length rows = length nodes
  /\ map (@point R) rows = nodes
  /\ (forall i r p,
        nth_error rows i = Some r -> nth_error nodes i = Some p ->
        node_id (point r) = node_id p
        /\ node_lat (point r) = node_lat p
        /\ node_lon (point r) = node_lon p).
Proof.
  intros nodes d rows.
  apply (@annotate_preserves_points exact nodes rows).
  apply (annotate_exact_pair (mkPoint "start" 33 (-84))
                             (mkPoint "end" 34 (-85)))%R.
Defined.

(** ** The lexer on texts built from fragments *)

Section LexFacts.
Local Open Scope string_scope.

Lemma append_assoc (a b c : string) : (a ++ b) ++ c = a ++ (b ++ c).
Proof. induction a; simpl; congruence. Qed.

Lemma append_nil_r (a : string) : a ++ EmptyString = a.
Proof. induction a; simpl; congruence. Qed.

Lemma length_append (a b : string) :
  String.length (a ++ b) = String.length a + String.length b.
Proof. induction a; simpl; congruence. Qed.

(** Lexing a concatenation is lexing its parts in turn. *)
Lemma lex_run_app (st : lstate) (a b : string) :
  lex_run st (a ++ b)
  = match lex_run st a with
    | Some (t1, st1) =>
        match lex_run st1 b with
        | Some (t2, st2) => Some ((t1 ++ t2)%list, st2)
        | None => None
        end
    | None => None
    end.
Proof.
  revert st. induction a as [|c a IH]; intros st; simpl.
  - destruct (lex_run st b) as [[t2 st2]|]; reflexivity.
  - destruct (lex_step st c) as [[ts st']|]; [|reflexivity].
    rewrite IH. destruct (lex_run st' a) as [[t1 st1]|]; [|reflexivity].
    destruct (lex_run st1 b) as [[t2 st2]|]; [|reflexivity].
    now rewrite app_assoc.
Qed.

Lemma lex_run_spaces (n : nat) :
  lex_run LDefault (spaces n) = Some ([], LDefault).
Proof.
  induction n as [|n IH]; simpl; [reflexivity|]. now rewrite IH.
Qed.

Lemma lex_run_safe (s : string) :
  forall acc, json_safe s = true ->
  lex_run (LString acc) s = Some ([], LString (acc ++ s)).
Proof.
  induction s as [|c s IH]; intros acc Hs; simpl.
  - now rewrite append_nil_r.
  - simpl in Hs. apply andb_prop in Hs. destruct Hs as [Hc Hs].
    unfold json_safe_char in Hc.
    apply andb_prop in Hc. destruct Hc as [Hc H32].
    apply andb_prop in Hc. destruct Hc as [Hq Hb].
    apply negb_true_iff in Hq, Hb, H32. rewrite Hq, Hb, H32.
    rewrite (IH _ Hs). unfold snoc. now rewrite append_assoc.
Qed.

Lemma lex_run_quoted (r : string) :
  json_safe r = true ->
  lex_run LDefault (String dquote (r ++ String dquote EmptyString))
  = Some ([TString r], LDefault).
Proof.
  intros Hr.
  change (lex_run LDefault (String dquote (r ++ String dquote EmptyString)))
    with (match lex_run (LString EmptyString) (r ++ String dquote EmptyString)
          with
          | Some (ts, st) => Some (ts, st)
          | None => None
          end).
  rewrite lex_run_app, lex_run_safe by exact Hr. reflexivity.
Qed.

Lemma number_run_lex (s : string) :
  forall st acc st', number_run st s = Some st' ->
  lex_run (LNumber st acc) s = Some ([], LNumber st' (acc ++ s)).
Proof.
  induction s as [|c s IH]; intros st acc st' H; simpl in *.
  - injection H as <-. now rewrite append_nil_r.
  - destruct (number_step st c) as [st1|]; [|discriminate].
    rewrite (IH _ _ _ H). unfold snoc. now rewrite append_assoc.
Qed.

Lemma lex_default_number_start (c : ascii) (st : nstate) :
  number_start c = Some st ->
  lex_default c = Some ([], LNumber st (String c EmptyString)).
Proof.
  destruct c as [[] [] [] [] [] [] [] []]; cbv; intros H;
    first [discriminate H | injection H as <-; reflexivity].
Qed.

Lemma lex_run_number (n : string) :
  is_json_number n = true ->
  exists st, lex_run LDefault n = Some ([], LNumber st n)
             /\ number_accept st = true.
Proof.
  destruct n as [|c n]; [discriminate|]. simpl.
  destruct (number_start c) as [st|] eqn:Ec; [|discriminate].
  destruct (number_run st n) as [st'|] eqn:En; [|discriminate].
  intros Hacc. exists st'. split; [|exact Hacc].
  rewrite (lex_default_number_start _ Ec).
  rewrite number_run_lex with (st' := st') by exact En. reflexivity.
Qed.

Lemma number_step_comma (st : nstate) : number_step st "," = None.
Proof. destruct st; reflexivity. Qed.

Lemma number_step_rbrack (st : nstate) : number_step st "]" = None.
Proof. destruct st; reflexivity. Qed.

Lemma frag_tokens_lex (f : frag) (ts : list token) :
  frag_tokens f = Some ts ->
  lex_run LDefault (render_frag f) = Some (ts, LDefault).
Proof.
  destruct f as [s|n d|r]; simpl.
  - destruct (lex_run LDefault s) as [[ts' [| | | | |]]|]; congruence.
  - destruct (is_json_number n) eqn:En; [|discriminate].
    destruct (lex_run_number _ En) as [st [Hrun Hacc]].
    rewrite lex_run_app, Hrun. cbn [lex_run lex_step].
    destruct (Ascii.eqb_spec d ",") as [->|_].
    + intros [= <-]. rewrite number_step_comma.
      unfold close_number. rewrite Hacc. reflexivity.
    + destruct (Ascii.eqb_spec d "]") as [->|_]; [|discriminate].
      intros [= <-]. rewrite number_step_rbrack.
      unfold close_number. rewrite Hacc. reflexivity.
  - destruct (json_safe r) eqn:Er; [|discriminate].
    intros [= <-]. now apply lex_run_quoted.
Qed.

Lemma frags_tokens_lex (fs : list frag) :
  forall ts, frags_tokens fs = Some ts ->
  lex_run LDefault (render fs) = Some (ts, LDefault).
Proof.
  induction fs as [|f fs IH]; intros ts; simpl.
  - now intros [= <-].
  - destruct (frag_tokens f) as [a|] eqn:Ef; [|discriminate].
    destruct (frags_tokens fs) as [b|] eqn:Efs; [|discriminate].
    intros [= <-]. rewrite lex_run_app.
    rewrite frag_tokens_lex with (ts := a) by exact Ef.
    rewrite (IH _ eq_refl). reflexivity.
Qed.

(** The decimal digits of a natural number form a JSON number. *)
Lemma digits_run (d : uint) :
  number_run NInt (NilEmpty.string_of_uint d) = Some NInt.
Proof. induction d; simpl; auto. Qed.

Lemma str_int_number (n : nat) : is_json_number (str_int n) = true.
Proof.
  unfold str_int.
  assert (Hn : unorm (Nat.to_uint n) = Nat.to_uint n).
  { rewrite <- (DecimalNat.Unsigned.of_to n) at 2.
    symmetry. apply DecimalNat.Unsigned.to_of. }
  destruct (Nat.to_uint n) as [|d|d|d|d|d|d|d|d|d|d];
    try (simpl; rewrite digits_run; reflexivity).
  - discriminate.
  - rewrite unorm_D0 in Hn. unfold unorm in Hn.
    destruct (nzhead d) eqn:Ed; try discriminate Hn.
    + injection Hn as <-. reflexivity.
    + now apply nzhead_nonzero in Ed.
Qed.

End LexFacts.

(** ** The parser reads back the tokens of every value *)

Section ParseFacts.

Lemma value_tokens_array (l : list json) :
  value_tokens (JArray l)
  = TLBrack :: join_comma (map value_tokens l) ++ [TRBrack].
Proof. reflexivity. Qed.

Lemma value_tokens_object (m : list (string * json)) :
  value_tokens (JObject m)
  = TLBrace :: join_comma (map member_tokens m) ++ [TRBrace].
Proof. reflexivity. Qed.

Lemma join_comma_cons (a : list token) (t : list (list token)) :
  t <> [] -> join_comma (a :: t) = a ++ TComma :: join_comma t.
Proof. destruct t; [congruence|reflexivity]. Qed.

Lemma value_tokens_head (v : json) :
  exists t ts, value_tokens v = t :: ts /\ opens t = true.
Proof.
  destruct v; simpl; eauto.
Qed.

Lemma length_value_tokens_pos (v : json) : 1 <= length (value_tokens v).
Proof.
  destruct (value_tokens_head v) as [t [ts [-> _]]]. simpl. lia.
Qed.

Lemma parse_value_array_nonempty (f : nat) (t : token) (ts : list token) :
  opens t = true ->
  parse_value (S f) (TLBrack :: t :: ts)
  = match parse_elements f (t :: ts) with
    | Some (vs, rest') => Some (JArray vs, rest')
    | None => None
    end.
Proof. destruct t; simpl; intros H; try discriminate; reflexivity. Qed.

Lemma parse_value_object_nonempty (f : nat) (k : string) (ts : list token) :
  parse_value (S f) (TLBrace :: TString k :: ts)
  = match parse_members f (TString k :: ts) with
    | Some (ms, rest') => Some (JObject ms, rest')
    | None => None
    end.
Proof. reflexivity. Qed.

Lemma parse_print_fuel (f : nat) :
  (forall v rest,
      length (value_tokens v) <= f ->
      parse_value f (value_tokens v ++ rest) = Some (v, rest))
  /\ (forall l rest,
        l <> [] ->
        length (join_comma (map value_tokens l)) + 1 <= f ->
        parse_elements f (join_comma (map value_tokens l) ++ TRBrack :: rest)
        = Some (l, rest))
  /\ (forall m rest,
        m <> [] ->
        length (join_comma (map member_tokens m)) + 1 <= f ->
        parse_members f (join_comma (map member_tokens m) ++ TRBrace :: rest)
        = Some (m, rest)).
Proof.
  induction f as [|f [IHv [IHe IHm]]].
  - repeat split.
    + intros v rest H. pose proof (length_value_tokens_pos v). lia.
    + intros; lia.
    + intros; lia.
  - repeat split.
    + (* values *)
      intros v rest Hlen. destruct v as [| | |n|s|l|m]; try reflexivity.
      * rewrite value_tokens_array in *. simpl in Hlen.
        rewrite length_app in Hlen. simpl in Hlen.
        destruct l as [|v1 l]; [reflexivity|].
        assert (Hne : v1 :: l <> []) by discriminate.
        specialize (IHe (v1 :: l) rest Hne).
        destruct (value_tokens_head v1) as [t [ts [Hv1 Ht]]].
        assert (Hj : exists ts', join_comma (map value_tokens (v1 :: l))
                                 = t :: ts').
        { cbn [map join_comma]. rewrite Hv1.
          destruct (map value_tokens l); simpl; eauto. }
        destruct Hj as [ts' Hj]. rewrite Hj in *.
        cbn [app]. rewrite <- app_assoc. cbn [app].
        rewrite parse_value_array_nonempty by exact Ht.
        cbn [app] in IHe. rewrite IHe by lia. reflexivity.
      * rewrite value_tokens_object in *. simpl in Hlen.
        rewrite length_app in Hlen. simpl in Hlen.
        destruct m as [|[k v1] m]; [reflexivity|].
        assert (Hne : (k, v1) :: m <> []) by discriminate.
        specialize (IHm ((k, v1) :: m) rest Hne).
        assert (Hj : exists ts', join_comma (map member_tokens ((k, v1) :: m))
                                 = TString k :: ts').
        { cbn [map join_comma member_tokens fst snd].
          destruct (map member_tokens m); cbn [app]; eexists; reflexivity. }
        destruct Hj as [ts' Hj]. rewrite Hj in *.
        cbn [app]. rewrite <- app_assoc. cbn [app].
        rewrite parse_value_object_nonempty.
        cbn [app] in IHm. rewrite IHm by lia. reflexivity.
    + (* elements *)
      intros l rest Hne Hlen. destruct l as [|v1 l]; [congruence|].
      pose proof (length_value_tokens_pos v1) as Hpos.
      destruct l as [|v2 l].
      * cbn [map join_comma] in *. cbn [parse_elements].
        rewrite IHv by lia. reflexivity.
      * rewrite map_cons, join_comma_cons in * by discriminate.
        rewrite length_app in Hlen. cbn [length] in Hlen.
        rewrite <- app_assoc. cbn [app parse_elements].
        rewrite IHv by lia.
        rewrite IHe by (try discriminate; lia). reflexivity.
    + (* members *)
      intros m rest Hne Hlen. destruct m as [|[k v1] m]; [congruence|].
      pose proof (length_value_tokens_pos v1) as Hpos.
      destruct m as [|kv2 m].
      * cbn [map join_comma member_tokens fst snd app length] in *.
        cbn [parse_members].
        rewrite IHv by lia. reflexivity.
      * rewrite map_cons, join_comma_cons in * by discriminate.
        rewrite length_app in Hlen.
        cbn [length member_tokens fst snd app] in *.
        cbn [parse_members]. rewrite <- app_assoc. cbn [app].
        rewrite IHv by lia.
        rewrite IHm by (try discriminate; lia). reflexivity.
Qed.

(** Parsing the tokens of a value gives the value back. *)
Lemma parse_print (v : json) :
  parse_value (length (value_tokens v)) (value_tokens v) = Some (v, []).
Proof.
  rewrite <- (app_nil_r (value_tokens v)) at 2.
  apply (proj1 (parse_print_fuel _)). lia.
Qed.

Lemma json_parse_lexed (s : string) (v : json) :
  lex_run LDefault s = Some (value_tokens v, LDefault) ->
  json_parse s = Some v.
Proof.
  intros H. unfold json_parse, lex. rewrite H. cbn [lex_end].
  rewrite app_nil_r. rewrite parse_print. reflexivity.
Qed.

End ParseFacts.

(** What [json_parse] accepts and rejects, on small texts: blanks anywhere
    between tokens, empty arrays and objects, escapes in strings; no
    trailing comma, no missing comma, no leading zero, no bare word. *)
Example json_parse_accepts :
  json_parse " [ 1 , -2.5e+3 ] " = Some (JArray [JNumber "1"; JNumber "-2.5e+3"])
  /\ json_parse "[]" = Some (JArray [])
  /\ json_parse "{ }" = Some (JObject [])
  /\ json_parse (lit "{'a': [true, false, null], 'b': 'x\ny'}")
     = Some (JObject [("a"%string, JArray [JTrue; JFalse; JNull]);
                      ("b"%string, JString "x\ny")]).
Proof. vm_compute. repeat split. Qed.

Example json_parse_rejects :
  json_parse "[1,]" = None
  /\ json_parse "[1 2]" = None
  /\ json_parse (lit "{'a': 1,}") = None
  /\ json_parse (lit "{'a' 1}") = None
  /\ json_parse "01" = None
  /\ json_parse "1." = None
  /\ json_parse "nul" = None
  /\ json_parse (lit "'a'b'") = None
  /\ json_parse "[1] [2]" = None
  /\ json_parse "[" = None.
Proof. vm_compute. repeat split. Qed.

(** ** The serializer *)

Section SerialFacts.
Variable F : Type.
Variable str_float : F -> string.
Local Open Scope string_scope.

Lemma point_string_render (name points_count : nat) (row : AnnotatedNode F) :
  point_string str_float (name, row) points_count
  = render (point_frags str_float name row) ++ separator name points_count.
Proof.
  unfold point_string, point_frags, separator.
  cbn [render render_frag].
  destruct (negb (Z.of_nat name =? Z.of_nat points_count - 1)%Z);
    rewrite ?append_assoc; cbn [lit append Ascii.eqb Bool.eqb];
    rewrite ?append_assoc; cbn [append]; rewrite ?append_nil_r; reflexivity.
Qed.

Lemma line_string_render (name points_count : nat) (row : AnnotatedNode F) :
  line_string str_float (name, (node_lat (point row), node_lon (point row)))
              points_count
  = render (line_frags str_float row) ++ separator name points_count.
Proof.
  unfold line_string, line_frags, separator.
  cbn [render render_frag].
  destruct (negb (Z.of_nat name =? Z.of_nat points_count - 1)%Z);
    rewrite ?append_assoc; cbn [append]; rewrite ?append_assoc;
    cbn [append]; rewrite ?append_nil_r; reflexivity.
Qed.

Hypothesis Hnum : prints_numbers str_float.

Lemma point_frags_tokens (name : nat) (row : AnnotatedNode F) :
  json_safe (node_id (point row)) = true ->
  frags_tokens (point_frags str_float name row)
  = Some (value_tokens (point_feature str_float name row)).
Proof.
  intros Hid. unfold point_frags.
  cbn [frags_tokens frag_tokens].
  rewrite !Hnum, str_int_number, Hid.
  reflexivity.
Qed.

Lemma line_frags_tokens (row : AnnotatedNode F) :
  frags_tokens (line_frags str_float row)
  = Some (value_tokens (position str_float row)).
Proof.
  unfold line_frags. cbn [frags_tokens frag_tokens].
  rewrite !Hnum. reflexivity.
Qed.

Lemma lex_separator (name points_count : nat) :
  lex_run LDefault (separator name points_count)
  = Some (sep_tokens name points_count, LDefault).
Proof.
  unfold separator, sep_tokens.
  destruct (negb (Z.of_nat name =? Z.of_nat points_count - 1)%Z);
    reflexivity.
Qed.

Lemma lex_point_body (name : nat) (row : AnnotatedNode F) :
  json_safe (node_id (point row)) = true ->
  lex_run LDefault (render (point_frags str_float name row))
  = Some (value_tokens (point_feature str_float name row), LDefault).
Proof.
  intros Hid. apply frags_tokens_lex. now apply point_frags_tokens.
Qed.

Lemma lex_point_string (name points_count : nat) (row : AnnotatedNode F) :
  json_safe (node_id (point row)) = true ->
  lex_run LDefault (point_string str_float (name, row) points_count)
  = Some ((value_tokens (point_feature str_float name row)
           ++ sep_tokens name points_count)%list, LDefault).
Proof.
  intros Hid. rewrite point_string_render, lex_run_app.
  rewrite lex_point_body by exact Hid. now rewrite lex_separator.
Qed.

Lemma lex_line_string (name points_count : nat) (row : AnnotatedNode F) :
  lex_run LDefault
    (line_string str_float
       (name, (node_lat (point row), node_lon (point row))) points_count)
  = Some ((value_tokens (position str_float row)
           ++ sep_tokens name points_count)%list, LDefault).
Proof.
  rewrite line_string_render, lex_run_app.
  rewrite frags_tokens_lex with (ts := value_tokens (position str_float row))
    by apply line_frags_tokens.
  now rewrite lex_separator.
Qed.

End SerialFacts.

(** ** The rendered texts *)

Section TextFacts.
Local Open Scope string_scope.

Lemma nth_error_indexed {A} (l : list A) :
  forall k i,
  nth_error (combine (seq k (length l)) l) i
  = option_map (fun x => (k + i, x)) (nth_error l i).
Proof.
  induction l as [|a l IH]; intros k i; simpl.
  - destruct i; reflexivity.
  - destruct i as [|i]; simpl.
    + now rewrite Nat.add_0_r.
    + rewrite IH. now rewrite Nat.add_succ_r.
Qed.

Lemma length_df_apply {A B} (f : nat * A -> B) (df : list A) :
  length (df_apply f df) = length df.
Proof.
  unfold df_apply. rewrite length_map, length_combine, length_seq.
  apply Nat.min_id.
Qed.

Lemma nth_error_df_apply {A B} (f : nat * A -> B) (df : list A) (i : nat) :
  nth_error (df_apply f df) i
  = option_map (fun row => f (i, row)) (nth_error df i).
Proof.
  unfold df_apply. rewrite nth_error_map, nth_error_indexed.
  destruct (nth_error df i); reflexivity.
Qed.

Lemma le_common_width (values : list string) (v : string) :
  In v values -> String.length v <= common_width values.
Proof.
  unfold common_width. induction values as [|x values IH]; simpl.
  - contradiction.
  - intros [->|Hin]; [lia|]. specialize (IH Hin). lia.
Qed.

Lemma common_width_le (values : list string) (c : nat) :
  Forall (fun v => String.length v <= c) values -> common_width values <= c.
Proof.
  unfold common_width. induction 1; simpl; lia.
Qed.

(** When nothing is cut, every value stands on its line, after blanks. *)
Lemma to_string_not_cut (max_colwidth : option nat) (values : list string) :
  not_cut max_colwidth values ->
  to_string max_colwidth values
  = String.concat (String newline EmptyString)
      (map (rjust (common_width values)) values).
Proof.
  destruct max_colwidth as [c|]; simpl; intros Hcut; unfold to_string.
  - fold (common_width values).
    rewrite Nat.min_l by now apply common_width_le.
    f_equal. apply map_ext_in. intros v Hin.
    apply le_common_width in Hin.
    destruct (Nat.ltb_spec (common_width values) (String.length v)); [lia|].
    now rewrite andb_false_r.
  - reflexivity.
Qed.

Lemma lex_run_rjust (w : nat) (v : string) (ts : list token) :
  lex_run LDefault v = Some (ts, LDefault) ->
  lex_run LDefault (rjust w v) = Some (ts, LDefault).
Proof.
  intros H. unfold rjust. now rewrite lex_run_app, lex_run_spaces, H.
Qed.

Lemma lex_run_newline (s : string) :
  lex_run LDefault (String newline s) = lex_run LDefault s.
Proof.
  change (lex_run LDefault (String newline s))
    with (match lex_run LDefault s with
          | Some (ts, st) => Some (ts, st)
          | None => None
          end).
  destruct (lex_run LDefault s) as [[ts st]|]; reflexivity.
Qed.

(** Values that lex to whole tokens lex, one per line, to all the tokens. *)
Lemma lex_lines (w : nat) (values : list string) (tokss : list (list token)) :
  Forall2 (fun v ts => lex_run LDefault v = Some (ts, LDefault)) values tokss ->
  lex_run LDefault
    (String.concat (String newline EmptyString) (map (rjust w) values))
  = Some (concat tokss, LDefault).
Proof.
  induction 1 as [|v ts values tokss Hv Hrest IH]; [reflexivity|].
  cbn [map String.concat concat].
  destruct Hrest as [|v2 ts2 values tokss Hv2 Hrest].
  - cbn [map concat]. rewrite app_nil_r. now apply lex_run_rjust.
  - cbn [map] in *. rewrite lex_run_app.
    rewrite lex_run_rjust with (ts := ts) by exact Hv.
    cbn [append]. rewrite lex_run_newline, IH. reflexivity.
Qed.

Lemma Forall2_map_same {A B C} (R : B -> C -> Prop) (f : A -> B) (g : A -> C)
  (l : list A) :
  (forall x, In x l -> R (f x) (g x)) -> Forall2 R (map f l) (map g l).
Proof.
  induction l as [|a l IH]; intros H; simpl; constructor.
  - apply H. now left.
  - apply IH. intros x Hx. apply H. now right.
Qed.

(** Commas stand between the values of the rows and nowhere else. *)
Lemma concat_sep_tokens {A} (g : nat -> A -> json) (rows : list A) :
  forall k n, n = k + length rows ->
  concat (map (fun ir => (value_tokens (g (fst ir) (snd ir))
                          ++ sep_tokens (fst ir) n)%list)
              (combine (seq k (length rows)) rows))
  = join_comma
      (map value_tokens
           (map (fun ir => g (fst ir) (snd ir))
                (combine (seq k (length rows)) rows))).
Proof.
  induction rows as [|r rows IH]; intros k n Hn; [reflexivity|].
  cbn [length seq combine map concat fst snd].
  specialize (IH (S k) n). cbn [length] in Hn.
  rewrite IH by lia. unfold sep_tokens.
  destruct rows as [|r2 rows].
  - cbn [length] in Hn.
    destruct (Z.eqb_spec (Z.of_nat k) (Z.of_nat n - 1)) as [_|Hne]; [|lia].
    cbn. now rewrite !app_nil_r.
  - cbn [length] in Hn.
    destruct (Z.eqb_spec (Z.of_nat k) (Z.of_nat n - 1)) as [He|_]; [lia|].
    cbn [negb length seq combine map join_comma].
    now rewrite <- app_assoc.
Qed.

End TextFacts.

(** ** The two collections *)

Section CollectionFacts.
Variable F : Type.
Variable str_float : F -> string.
Hypothesis Hnum : prints_numbers str_float.

Lemma lex_points_header :
  lex_run LDefault points_header = Some (points_header_tokens, LDefault).
Proof. reflexivity. Qed.

Lemma lex_points_footer :
  lex_run LDefault points_footer = Some (points_footer_tokens, LDefault).
Proof. reflexivity. Qed.

Lemma lex_line_header :
  lex_run LDefault line_header = Some (line_header_tokens, LDefault).
Proof. reflexivity. Qed.

Lemma lex_line_footer :
  lex_run LDefault line_footer = Some (line_footer_tokens, LDefault).
Proof. reflexivity. Qed.

Lemma point_collection_tokens (df : list (AnnotatedNode F)) :
  value_tokens (point_collection str_float df)
  = concat
      ([points_header_tokens]
       ++ map (fun ir => value_tokens (point_feature str_float (fst ir) (snd ir))
                         ++ sep_tokens (fst ir) (length df))
              (combine (seq 0 (length df)) df)
       ++ [points_footer_tokens]).
Proof.
  rewrite !concat_app.
  rewrite concat_sep_tokens with (g := point_feature str_float)
    (k := 0) (n := length df) by reflexivity.
  unfold point_collection, indexed.
  rewrite (map_ext (fun '(i, row) => point_feature str_float i row)
                   (fun ir => point_feature str_float (fst ir) (snd ir)))
    by (intros [i row]; reflexivity).
  set (feats := map _ (combine _ df)).
  rewrite value_tokens_object.
  cbn [map join_comma]. unfold member_tokens. cbn [fst snd].
  rewrite value_tokens_array.
  cbn [concat app value_tokens points_header_tokens points_footer_tokens].
  rewrite <- !app_assoc. reflexivity.
Qed.

Lemma map_snd_indexed {A B} (h : A -> B) (l : list A) :
  forall k,
  map (fun ir : nat * A => h (snd ir)) (combine (seq k (length l)) l)
  = map h l.
Proof.
  induction l as [|a l IH]; intros k; simpl; [reflexivity|].
  now rewrite IH.
Qed.

Lemma indexed_map {A B} (h : A -> B) (l : list A) :
  forall k,
  combine (seq k (length (map h l))) (map h l)
  = map (fun ir : nat * A => (fst ir, h (snd ir)))
        (combine (seq k (length l)) l).
Proof.
  induction l as [|a l IH]; intros k; simpl; [reflexivity|].
  now rewrite IH.
Qed.

Lemma line_collection_tokens (df : list (AnnotatedNode F)) :
  value_tokens (line_collection str_float df)
  = concat
      ([line_header_tokens]
       ++ map (fun ir => value_tokens (position str_float (snd ir))
                         ++ sep_tokens (fst ir) (length df))
              (combine (seq 0 (length df)) df)
       ++ [line_footer_tokens]).
Proof.
  rewrite !concat_app.
  rewrite concat_sep_tokens with (g := fun _ row => position str_float row)
    (k := 0) (n := length df) by reflexivity.
  cbn [fst snd]. rewrite map_snd_indexed.
  unfold line_collection.
  set (positions := map (position str_float) df).
  cbn [value_tokens map join_comma fst snd app concat
       line_header_tokens line_footer_tokens].
  rewrite <- !app_assoc. reflexivity.
Qed.

Lemma lex_points_text (max_colwidth : option nat)
  (df : list (AnnotatedNode F)) :
  safe_ids df ->
  not_cut max_colwidth (s_points str_float df) ->
  lex_run LDefault (points_geojson str_float max_colwidth df)
  = Some (value_tokens (point_collection str_float df), LDefault).
Proof.
  intros Hsafe Hcut. unfold points_geojson.
  rewrite to_string_not_cut by exact Hcut.
  rewrite point_collection_tokens. apply lex_lines.
  unfold s_points, df_apply.
  apply Forall2_app; [repeat constructor|].
  apply Forall2_app; [|repeat constructor].
  apply Forall2_map_same. intros [i row] Hin. cbn [fst snd].
  apply lex_point_string; [exact Hnum|].
  apply in_combine_r in Hin.
  unfold safe_ids in Hsafe. rewrite Forall_forall in Hsafe. now apply Hsafe.
Qed.

Lemma lex_line_text (max_colwidth : option nat)
  (df : list (AnnotatedNode F)) :
  not_cut max_colwidth (s_line str_float df) ->
  lex_run LDefault (line_geojson str_float max_colwidth df)
  = Some (value_tokens (line_collection str_float df), LDefault).
Proof.
  intros Hcut. unfold line_geojson.
  rewrite to_string_not_cut by exact Hcut.
  rewrite line_collection_tokens. apply lex_lines.
  unfold s_line, df_apply, lat_lon_columns.
  apply Forall2_app; [repeat constructor|].
  apply Forall2_app; [|repeat constructor].
  rewrite indexed_map, map_map.
  apply Forall2_map_same. intros [i row] Hin. cbn [fst snd].
  now apply lex_line_string.
Qed.

Lemma separator_between (i n : nat) :
  i < n ->
  separator i n
  = if S i <? n then String "," EmptyString else EmptyString.
Proof.
  intros Hi. unfold separator.
  destruct (Z.eqb_spec (Z.of_nat i) (Z.of_nat n - 1));
    destruct (Nat.ltb_spec (S i) n); simpl; try reflexivity; lia.
Qed.

End CollectionFacts.

(** ** The serializer: what is emitted, and when it is valid JSON *)

(** The value emitted for the first of two nodes, on integer values. *)
Example point_string_sample :
  point_string str_int (0, mkRow (mkPoint "start" 33 84) 0 7 0) 2
  = lit ("    {      'type': 'Feature',      'properties': { "
         ++ "        'node_order': 0,        'node_id': 'start',"
         ++ "        'distance_from_prev_node': 0,"
         ++ "        'cuml_distance': 0,"
         ++ "        'distance_to_next_node': 7,"
         ++ "        'type': 'route node'      },"
         ++ "      'geometry': {        'type': 'Point',"
         ++ "        'coordinates': [84,33]      }    },").
Proof. reflexivity. Qed.

Example line_string_sample :
  line_string str_int (0, (33, 84)) 2 = "[84,33],"%string
  /\ line_string str_int (1, (34, 85)) 2 = "[85,34]"%string.
Proof. split; reflexivity. Qed.

(** C3, as stated, fails.  On the single node 'start' the emitted feature
    is the expected one with the key [cuml_distance]; it is not the feature
    with the key [cumulative_distance].  On a node whose id holds a double
    quote the emitted value is no JSON value at all, so it carries no
    property. *)
Lemma point_feature_key_counterexample :
  let row := mkRow (mkPoint "start" 33 84) 0 7 0 in
  let odd := mkRow (mkPoint (lit "a'b") 33 84) 0 7 0 in
  json_parse (point_string str_int (0, row) 1)
  = Some (point_feature str_int 0 row)
  /\ json_parse (point_string str_int (0, row) 1)
     <> Some (point_feature_with str_int "cumulative_distance" 0 row)
  /\ json_parse (point_string str_int (0, odd) 1) = None.
Proof.
  vm_compute. split; [reflexivity|]. split; [discriminate|reflexivity].
Qed.

(** C3 (amended). When [str] prints numbers as JSON numbers and no node id
    needs escaping, the serializer emits one value per node; the value for
    the node at position i is a JSON object followed by the separator, and
    the object is the point feature of the node: type Feature, the
    properties node_order (i), node_id, distance_from_prev_node,
    cuml_distance, distance_to_next_node and type "route node", and a Point
    geometry at [lon, lat]. *)
Theorem point_features_emitted (F : Type) (str_float : F -> string)
  (df : list (AnnotatedNode F)) :
  prints_numbers str_float ->
  safe_ids df ->
  let values := df_apply (fun row => point_string str_float row (length df))
                         df in
  length values = length df
  /\ forall i row,
       nth_error df i = Some row ->
       exists body,
         nth_error values i = Some (body ++ separator i (length df))%string
         /\ json_parse body = Some (point_feature str_float i row).
Proof.
  intros Hnum Hsafe values. split; [apply length_df_apply|].
  intros i row Hi. exists (render (point_frags str_float i row)). split.
  - unfold values. rewrite nth_error_df_apply, Hi. cbn [option_map].
    now rewrite point_string_render.
  - apply json_parse_lexed, lex_point_body; [exact Hnum|].
    unfold safe_ids in Hsafe. rewrite Forall_forall in Hsafe.
    apply Hsafe. eapply nth_error_In; eassumption.
Qed.

(** C3 (amended), on two nodes with integer values. *)
Lemma point_features_emitted_witness :
  let df := [mkRow (mkPoint "start" 33 84) 0 7 0;
             mkRow (mkPoint "end" 34 85) 7 0 7] in
  let values := df_apply (fun row => point_string str_int row (length df))
                         df in
  length values = length df
  /\ forall i row,
       nth_error df i = Some row ->
       exists body,
         nth_error values i = Some (body ++ separator i (length df))%string
         /\ json_parse body = Some (point_feature str_int i row).
Proof.
  intros df.
  apply (point_features_emitted (str_float := str_int) (df := df)).
  - exact str_int_number.
  - unfold df. repeat constructor.
Defined.

(** ** The texts under the column width pandas starts with *)

Lemma lex_run_prefix_fails (st : lstate) (a b : string) :
  lex_run st a = None -> lex_run st (a ++ b) = None.
Proof. intros H. now rewrite lex_run_app, H. Qed.

(** A text whose beginning the lexer refuses is not JSON. *)
Lemma json_valid_prefix_fails (a b : string) :
  lex_run LDefault a = None -> json_valid (a ++ b) = false.
Proof.
  intros H. unfold json_valid, json_parse, lex.
  now rewrite lex_run_prefix_fails by exact H.
Qed.

Lemma substring_app_prefix (n : nat) :
  forall a b : string,
  n <= String.length a -> substring 0 n (a ++ b) = substring 0 n a.
Proof.
  induction n as [|n IH]; intros a b H.
  - destruct a, b; reflexivity.
  - destruct a as [|c a]; simpl in H; [lia|].
    simpl. f_equal. apply IH. lia.
Qed.

Lemma cut_at_long (w : nat) (a b : string) :
  w < String.length a ->
  cut_at w (a ++ b) = (substring 0 (w - 3) a ++ "...")%string.
Proof.
  intros H. unfold cut_at. rewrite length_append.
  destruct (Nat.ltb_spec w (String.length a + String.length b)); [|lia].
  rewrite substring_app_prefix by lia. reflexivity.
Qed.

Lemma concat_cons2 (sep x y : string) (l : list string) :
  String.concat sep (x :: y :: l)
  = (x ++ sep ++ String.concat sep (y :: l))%string.
Proof. reflexivity. Qed.

(** [to_string] under the width 50, when a value is that long. *)
Lemma to_string_default (values : list string) :
  50 <= common_width values ->
  to_string (Some 50) values
  = String.concat (String newline EmptyString)
      (map (fun x => rjust 50 (cut_at 50 x)) values).
Proof.
  intros H. unfold to_string. fold (common_width values).
  rewrite Nat.min_r by exact H. reflexivity.
Qed.

Section DefaultWidth.
Variable F : Type.
Variable str_float : F -> string.

(** The line header is cut inside its first line, after ["features" :]. *)
Lemma line_text_cut (df : list (AnnotatedNode F)) :
  json_valid (line_geojson str_float (Some 50) df) = false.
Proof.
  unfold line_geojson, s_line. cbn [app].
  rewrite to_string_default.
  - set (rest := (_ ++ [line_footer])%list).
    destruct rest as [|y ys] eqn:E;
      [apply app_eq_nil in E; destruct E; discriminate|].
    cbn [map]. rewrite concat_cons2.
    apply json_valid_prefix_fails. vm_compute. reflexivity.
  - unfold common_width. cbn [map fold_right].
    assert (H : String.length line_header = 177) by (vm_compute; reflexivity).
    rewrite H. lia.
Qed.

(** The first point feature is cut after ["properties"]. *)
Lemma points_text_cut (row : AnnotatedNode F)
  (df : list (AnnotatedNode F)) :
  json_valid (points_geojson str_float (Some 50) (row :: df)) = false.
Proof.
  unfold points_geojson, s_points, df_apply.
  cbn [app length seq combine map].
  rewrite point_string_render. unfold point_frags.
  cbn [render render_frag]. rewrite append_assoc.
  set (prefix := (lit "    {" ++ lit "      'type': 'Feature',"
                  ++ lit "      'properties': { "
                  ++ lit "        'node_order': ")%string).
  set (tail := (_ ++ separator 0 (S (length df)))%string).
  assert (Hp : String.length prefix = 73) by (vm_compute; reflexivity).
  rewrite to_string_default.
  - set (rest := (_ ++ [points_footer])%list).
    destruct rest as [|y ys] eqn:E;
      [apply app_eq_nil in E; destruct E; discriminate|].
    cbn [map]. rewrite !concat_cons2.
    rewrite cut_at_long by (rewrite Hp; lia).
    rewrite <- !append_assoc.
    apply json_valid_prefix_fails. vm_compute. reflexivity.
  - unfold common_width. cbn [map fold_right].
    rewrite length_append, Hp. lia.
Qed.

End DefaultWidth.

(** C4 (the defect). The script never sets [display.max_colwidth], so
    [to_string] runs under the width pandas starts with, 50.  For every
    frame with a row, whatever [str] prints, the text written for the line
    and the text written for the points are then not JSON: the header of
    the line collection (177 characters) and every point feature are cut
    down to 47 characters and three dots. *)
Theorem default_width_breaks_json (F : Type) (str_float : F -> string)
  (df : list (AnnotatedNode F)) :
  df <> [] ->
  json_valid (line_geojson str_float (Some 50) df) = false
  /\ json_valid (points_geojson str_float (Some 50) df) = false.
Proof.
  intros Hne. split; [apply line_text_cut|].
  destruct df as [|row df]; [congruence|]. apply points_text_cut.
Qed.

(** C4 (the defect), on one node with integer values. *)
Lemma default_width_breaks_json_witness :
  let df := [mkRow (mkPoint "start" 33 84) 0 7 0] in
  json_valid (line_geojson str_int (Some 50) df) = false
  /\ json_valid (points_geojson str_int (Some 50) df) = false.
Proof.
  intros df. apply (@default_width_breaks_json nat str_int df).
  discriminate.
Defined.

(** * Further properties *)

(** ** More on the deduplicator *)

Section DedupMore.
Context {C : Type}.
#[local] Abbreviation pt := (RoutePoint C).

Lemma dedup_loop_from (l : list pt) :
  forall (c : list pt) (w : list pyobj),
  fst (dedup_loop l (c, w)) = c ++ dedup_from w l.
Proof.
  unfold dedup_loop.
  induction l as [|x l IH]; intros c w; cbn [fold_left dedup_from].
  - simpl. now rewrite app_nil_r.
  - unfold dedup_step at 2.
    destruct (py_in (node_id x) w); cbn [negb].
    + apply IH.
    + rewrite IH, <- app_assoc. reflexivity.
Qed.

Lemma dedupe_from (l : list pt) : dedupe l = dedup_from initial_window l.
Proof. unfold dedupe. now rewrite dedup_loop_from. Qed.

Lemma dedup_from_subseq (l : list pt) :
  forall w, subseq (dedup_from w l) l.
Proof.
  induction l as [|x l IH]; intros w; simpl.
  - constructor.
  - destruct (py_in (node_id x) w); constructor; apply IH.
Qed.

Lemma subseq_In {A} (l1 l2 : list A) (a : A) :
  subseq l1 l2 -> In a l1 -> In a l2.
Proof.
  induction 1; simpl; intuition.
Qed.

Lemma subseq_length {A} (l1 l2 : list A) :
  subseq l1 l2 -> length l1 <= length l2.
Proof. induction 1; simpl; lia. Qed.

Lemma dedupe_head (x : pt) (l : list pt) :
  dedupe (x :: l)
  = x :: dedup_from (tl initial_window ++ [PStr (node_id x)]) l.
Proof. rewrite dedupe_from. reflexivity. Qed.

Lemma in_recent5 (kept : list pt) (s : string) :
  In s (recent5 kept) -> exists y, In y kept /\ node_id y = s.
Proof.
  unfold recent5, lastn. intros H. apply in_skipn in H.
  apply in_map_iff in H. destruct H as [y [Hy Hin]]. eauto.
Qed.

Lemma recent5_last (kept : list pt) (x : pt) :
  In (node_id x) (recent5 (kept ++ [x])).
Proof.
  unfold recent5, lastn. rewrite map_app, length_app. simpl.
  rewrite skipn_app. apply in_or_app. right.
  rewrite length_map.
  replace (length kept + 1 - 5 - length kept) with 0 by lia.
  simpl. now left.
Qed.

Lemma nth_error_recent5 (kept : list pt) (i : nat) (a : pt) :
  nth_error kept i = Some a -> length kept <= i + 5 ->
  In (node_id a) (recent5 kept).
Proof.
  intros Hi Hlen. unfold recent5, lastn. rewrite length_map.
  apply (nth_error_In _ (i - (length kept - 5))).
  rewrite nth_error_skipn.
  assert (Hlt : i < length kept) by (apply nth_error_Some; congruence).
  replace (length kept - 5 + (i - (length kept - 5))) with i by lia.
  now apply map_nth_error.
Qed.

Lemma dedupe_snoc_cases (xs : list pt) (x : pt) :
  (dedupe (xs ++ [x]) = dedupe xs /\ In (node_id x) (recent5 (dedupe xs)))
  \/ (dedupe (xs ++ [x]) = dedupe xs ++ [x]
      /\ ~ In (node_id x) (recent5 (dedupe xs))).
Proof.
  rewrite dedupe_snoc.
  destruct (py_in (node_id x) (window_of (dedupe xs))) eqn:E.
  - left. split; [reflexivity|]. now apply in_window_of, py_in_spec.
  - right. split; [reflexivity|]. intros H.
    apply in_window_of, py_in_spec in H. congruence.
Qed.

End DedupMore.

(** X1. The deduplicator only removes nodes: what it returns is the input
    with some nodes left out, in the same order, so it is never longer than
    the input and holds no node the input does not hold. *)
Theorem dedupe_subseq (C : Type) (l : list (RoutePoint C)) :
  subseq (dedupe l) l
  /\ length (dedupe l) <= length l
  /\ (forall x, In x (dedupe l) -> In x l).
Proof.
  assert (H : subseq (dedupe l) l)
    by (rewrite dedupe_from; apply dedup_from_subseq).
  split; [exact H|]. split.
  - now apply subseq_length.
  - intros x. now apply subseq_In.
Qed.

(** X2. In the cleaned list no id comes back within five positions: two
    nodes at most five places apart have different ids.  In particular no two
    neighbours share an id. *)
Theorem dedupe_no_recent_repeat (C : Type) (l : list (RoutePoint C)) :
  forall i j a b,
    i < j -> j <= i + 5 ->
    nth_error (dedupe l) i = Some a -> nth_error (dedupe l) j = Some b ->
    node_id a <> node_id b.
Proof.
  induction l as [|x xs IH] using rev_ind; intros i j a b Hij Hj Ha Hb.
  - destruct i; discriminate.
  - destruct (dedupe_snoc_cases xs x) as [[E _]|[E Hnot]]; rewrite E in *.
    + now apply (IH i j a b).
    + assert (Hjlen : j < length (dedupe xs ++ [x]))
        by (apply nth_error_Some; congruence).
      rewrite length_app in Hjlen. simpl in Hjlen.
      destruct (Nat.eq_dec j (length (dedupe xs))) as [->|Hne].
      * rewrite nth_error_app2 in Hb by lia.
        rewrite Nat.sub_diag in Hb. injection Hb as <-.
        rewrite nth_error_app1 in Ha by lia.
        intros Heq. apply Hnot. rewrite <- Heq.
        eapply nth_error_recent5; [eassumption|lia].
      * rewrite nth_error_app1 in Ha, Hb by lia.
        now apply (IH i j a b).
Qed.

(** X3. No id is lost: every id of the input is the id of some node of the
    cleaned list. *)
Theorem dedupe_keeps_every_id (C : Type) (l : list (RoutePoint C)) :
  forall x, In x l -> exists y, In y (dedupe l) /\ node_id y = node_id x.
Proof.
  induction l as [|x0 xs IH] using rev_ind; intros x Hin; [contradiction|].
  apply in_app_or in Hin.
  destruct (dedupe_snoc_cases xs x0) as [[E Hrec]|[E _]]; rewrite E.
  - destruct Hin as [Hin|[<-|[]]]; [now apply IH|].
    now apply in_recent5.
  - destruct Hin as [Hin|[<-|[]]].
    + destruct (IH x Hin) as [y [Hy Hid]]. exists y. split; [|exact Hid].
      apply in_or_app. now left.
    + exists x0. split; [|reflexivity]. apply in_or_app. right. now left.
Qed.

(** X4. A node that repeats the id of the node just before it in the input
    is always removed, whether or not that node was kept. *)
Theorem dedupe_collapses_neighbours (C : Type) (xs : list (RoutePoint C))
  (x x' : RoutePoint C) :
  node_id x' = node_id x ->
  dedupe (xs ++ [x; x']) = dedupe (xs ++ [x]).
Proof.
  intros Hid. change (xs ++ [x; x']) with (xs ++ [x] ++ [x']).
  rewrite app_assoc. apply dedupe_drops. rewrite Hid.
  destruct (dedupe_snoc_cases xs x) as [[E Hrec]|[E _]]; rewrite E.
  - exact Hrec.
  - apply recent5_last.
Qed.

(** X4, on a route that restates an intersection. *)
Lemma dedupe_collapses_neighbours_witness :
  dedupe [mkPoint "start" 0%Z 0%Z; mkPoint "1|2" 1%Z 2%Z;
          mkPoint "1|2" 1%Z 2%Z]
  = dedupe [mkPoint "start" 0%Z 0%Z; mkPoint "1|2" 1%Z 2%Z].
Proof.
  apply (dedupe_collapses_neighbours [mkPoint "start" 0%Z 0%Z]).
  reflexivity.
Defined.

(** X5. A list in which every id occurs once is returned unchanged. *)
Theorem dedupe_distinct_ids (C : Type) (l : list (RoutePoint C)) :
  NoDup (map (@node_id C) l) -> dedupe l = l.
Proof.
  induction l as [|x xs IH] using rev_ind; intros Hnd; [reflexivity|].
  rewrite map_app in Hnd. simpl in Hnd.
  apply NoDup_remove in Hnd. rewrite app_nil_r in Hnd.
  destruct Hnd as [Hnd Hnot]. specialize (IH Hnd).
  rewrite dedupe_keeps; rewrite IH; [reflexivity|].
  intros H. apply Hnot. unfold recent5, lastn in H. now apply in_skipn in H.
Qed.

(** X5, on three nodes. *)
Lemma dedupe_distinct_ids_witness :
  dedupe [mkPoint "start" 0%Z 0%Z; mkPoint "1|2" 1%Z 2%Z;
          mkPoint "end" 3%Z 4%Z]
  = [mkPoint "start" 0%Z 0%Z; mkPoint "1|2" 1%Z 2%Z; mkPoint "end" 3%Z 4%Z].
Proof.
  apply dedupe_distinct_ids. simpl.
  repeat constructor; simpl; intuition discriminate.
Defined.

(** X6. The look-back window always holds exactly five entries, each a
    sentinel or the id of a kept node: deleting its first entry never fails
    and no node is compared with more than five ids. *)
Theorem dedup_window_size (C : Type) (l : list (RoutePoint C)) :
  let w := snd (dedup_loop l ([], initial_window)) in
  length w = 5
  /\ forall o, In o w ->
       o = PInt 0 \/ exists y, In y (dedupe l) /\ o = PStr (node_id y).
Proof.
  intros w. unfold w.
  pose proof (dedup_loop_window l []) as Hw.
  change (window_of []) with initial_window in Hw.
  rewrite Hw. fold (dedupe l).
  unfold window_of, lastn. split.
  - rewrite length_skipn, !length_app.
    change (length initial_window) with 5. lia.
  - intros o Ho. apply in_skipn in Ho. apply in_app_or in Ho.
    destruct Ho as [Ho|Ho].
    + left. simpl in Ho. intuition.
    + right. rewrite map_map in Ho. apply in_map_iff in Ho.
      destruct Ho as [y [Hy Hin]]. eauto.
Qed.

(** X2, on the first two nodes of a route of three. *)
Lemma dedupe_no_recent_repeat_witness :
  node_id (mkPoint "start" 0%Z 0%Z) <> node_id (mkPoint "1|2" 1%Z 2%Z).
Proof.
  apply (@dedupe_no_recent_repeat Z
           [mkPoint "start" 0%Z 0%Z; mkPoint "1|2" 1%Z 2%Z;
            mkPoint "end" 3%Z 4%Z] 0 1); [lia|lia|reflexivity|reflexivity].
Defined.

(** X3, on a node that is dropped: the node kept under its id came
    earlier. *)
Lemma dedupe_keeps_every_id_witness :
  let l := [mkPoint "start" 0%Z 0%Z; mkPoint "1|2" 1%Z 2%Z;
            mkPoint "1|2" 5%Z 6%Z] in
  dedupe l = [mkPoint "start" 0%Z 0%Z; mkPoint "1|2" 1%Z 2%Z]
  /\ exists y, In y (dedupe l)
               /\ node_id y = node_id (mkPoint "1|2" 5%Z 6%Z).
Proof.
  intros l. split; [reflexivity|].
  apply (@dedupe_keeps_every_id Z l). simpl. tauto.
Defined.

(** X7. The loop over the concatenation of two node lists keeps what it
    keeps of the first, then goes on through the second from the window the
    first has left: the five most recent ids kept, after the sentinels. *)
Theorem dedupe_app (C : Type) (l1 l2 : list (RoutePoint C)) :
  dedupe (l1 ++ l2)
  = dedupe l1 ++ dedup_from (window_of (dedupe l1)) l2.
Proof.
  unfold dedupe at 1. unfold dedup_loop. rewrite fold_left_app.
  fold (dedup_loop l1 (@nil (RoutePoint C), initial_window)).
  pose proof (dedup_loop_window l1 []) as Hw.
  change (window_of []) with initial_window in Hw.
  fold (dedupe l1) in Hw.
  destruct (dedup_loop l1 ([], initial_window)) as [k w] eqn:E.
  assert (Hk : dedupe l1 = k) by (unfold dedupe; now rewrite E).
  simpl in Hw. rewrite Hk in *. subst w.
  fold (dedup_loop l2 (k, window_of k)).
  apply dedup_loop_from.
Qed.

(** ** More on the distance function *)

Section GcdMore.
Local Open Scope R_scope.

Lemma hav_a_sym (o_lat o_lon d_lat d_lon : R) :
  hav_a o_lat o_lon d_lat d_lon = hav_a d_lat d_lon o_lat o_lon.
Proof.
  unfold hav_a.
  replace (radians (d_lat - o_lat) / 2) with (- (radians (o_lat - d_lat) / 2))
    by (unfold radians; field).
  replace (radians (d_lon - o_lon) / 2) with (- (radians (o_lon - d_lon) / 2))
    by (unfold radians; field).
  rewrite !sin_neg. ring.
Qed.

Lemma atan2_le_half_pi (y x : R) : 0 <= y -> 0 <= x -> atan2 y x <= PI / 2.
Proof.
  intros Hy Hx. unfold atan2. pose proof PI_RGT_0 as Hpi.
  destruct (Rlt_dec 0 x).
  - left. apply atan_bound.
  - destruct (Rlt_dec x 0); [lra|].
    destruct (Rlt_dec 0 y); [lra|].
    destruct (Rlt_dec y 0); lra.
Qed.

(** The angle of the point (cos t, sin t) of the first quadrant is t. *)
Lemma atan2_sin_cos (t : R) :
  0 <= t <= PI / 2 -> atan2 (sin t) (cos t) = t.
Proof.
  intros [H0 H1]. unfold atan2. pose proof PI_RGT_0 as Hpi.
  destruct H1 as [H1| ->].
  - assert (Hc : 0 < cos t) by (apply cos_gt_0; lra).
    destruct (Rlt_dec 0 (cos t)); [|lra].
    change (sin t / cos t) with (tan t). apply atan_tan. lra.
  - rewrite cos_PI2, sin_PI2.
    destruct (Rlt_dec 0 0); [lra|]. destruct (Rlt_dec 0 1); lra.
Qed.

(** The distance when the haversine term is the square of a sine. *)
Lemma dist_of_half_angle (a t : R) :
  0 <= t <= PI / 2 -> a = sin t ^ 2 ->
  earth_radius * (2 * atan2 (sqrt a) (sqrt (1 - a))) = earth_radius * (2 * t).
Proof.
  intros Ht ->. pose proof PI_RGT_0 as Hpi.
  assert (Hs : 0 <= sin t) by (apply sin_ge_0; lra).
  assert (Hc : 0 <= cos t) by (apply cos_ge_0; lra).
  rewrite (sqrt_pow2 _ Hs).
  replace (1 - sin t ^ 2) with (cos t ^ 2).
  - rewrite (sqrt_pow2 _ Hc). now rewrite atan2_sin_cos.
  - pose proof (sin2_cos2 t) as H. unfold Rsqr in H. lra.
Qed.

Lemma sin_half_abs_sq (x : R) : sin (x / 2) ^ 2 = sin (Rabs x / 2) ^ 2.
Proof.
  unfold Rabs. destruct (Rcase_abs x); [|reflexivity].
  replace (- x / 2) with (- (x / 2)) by field. rewrite sin_neg. ring.
Qed.

Lemma radians_abs (x : R) : radians (Rabs x) = Rabs (radians x).
Proof.
  unfold radians. rewrite Rabs_mult. f_equal.
  pose proof PI_RGT_0. symmetry. apply Rabs_right. lra.
Qed.

Lemma half_angle_range (x : R) :
  Rabs x <= 180 -> 0 <= radians (Rabs x) / 2 <= PI / 2.
Proof.
  intros H. pose proof PI_RGT_0 as Hpi. pose proof (Rabs_pos x) as Hx.
  unfold radians. split; nra.
Qed.

Lemma hav_dist_meridian (o_lat d_lat lon : R) :
  Rabs (d_lat - o_lat) <= 180 ->
  hav_dist o_lat lon d_lat lon = earth_radius * radians (Rabs (d_lat - o_lat)).
Proof.
  intros H. unfold hav_dist.
  rewrite dist_of_half_angle with (t := radians (Rabs (d_lat - o_lat)) / 2).
  - f_equal. field.
  - now apply half_angle_range.
  - unfold hav_a.
    replace (radians (lon - lon) / 2) with 0 by (unfold radians; field).
    rewrite sin_0, radians_abs, <- sin_half_abs_sq. ring.
Qed.

Lemma hav_dist_equator (o_lon d_lon : R) :
  Rabs (d_lon - o_lon) <= 180 ->
  hav_dist 0 o_lon 0 d_lon = earth_radius * radians (Rabs (d_lon - o_lon)).
Proof.
  intros H. unfold hav_dist.
  rewrite dist_of_half_angle with (t := radians (Rabs (d_lon - o_lon)) / 2).
  - f_equal. field.
  - now apply half_angle_range.
  - unfold hav_a.
    replace (radians (0 - 0) / 2) with 0 by (unfold radians; field).
    replace (radians 0) with 0 by (unfold radians; ring).
    rewrite sin_0, cos_0, radians_abs, <- sin_half_abs_sq. ring.
Qed.

End GcdMore.

(** X8. The distance does not depend on the direction: swapping origin and
    destination gives the same result, missing arguments included. *)
Theorem gcd_symmetric (o_lat o_lon d_lat d_lon : cell) :
  gcd o_lat o_lon d_lat d_lon = gcd d_lat d_lon o_lat o_lon.
Proof.
  destruct o_lat as [a|], o_lon as [b|], d_lat as [c|], d_lon as [d|];
    try reflexivity.
  rewrite !gcd_value. unfold hav_dist. now rewrite hav_a_sym.
Qed.

(** X9. On exact reals a distance the function returns is at most half the
    circumference of the sphere of radius 3956 miles. *)
Theorem gcd_at_most_half_circumference (o_lat o_lon d_lat d_lon : cell)
  (d : R) :
  gcd o_lat o_lon d_lat d_lon = Ok d ->
  (0 <= d <= earth_radius * PI)%R.
Proof.
  pose proof PI_RGT_0 as Hpi.
  destruct o_lat as [a|], o_lon as [b|], d_lat as [c|], d_lon as [e|];
    try (intros [= <-]; unfold earth_radius; lra).
  rewrite gcd_value. intros [= <-].
  split; [apply hav_dist_nonneg|].
  unfold hav_dist, earth_radius.
  pose proof (atan2_le_half_pi (sqrt_pos (hav_a a b c e))
                               (sqrt_pos (1 - hav_a a b c e))).
  lra.
Qed.

(** X9, between (33, -84) and (34, -85). *)
Lemma gcd_at_most_half_circumference_witness :
  (0 <= hav_dist 33 (-84) 34 (-85) <= earth_radius * PI)%R.
Proof.
  apply (@gcd_at_most_half_circumference
           (Some 33%R) (Some (-84)%R) (Some 34%R) (Some (-85)%R)).
  apply gcd_value.
Defined.

(** X10. Between two points of one meridian whose latitudes differ by at most
    180 degrees, the distance is the radius times the difference of
    latitude in radians. *)
Theorem gcd_along_meridian (o_lat d_lat lon : R) :
  (Rabs (d_lat - o_lat) <= 180)%R ->
  gcd (Some o_lat) (Some lon) (Some d_lat) (Some lon)
  = Ok (earth_radius * radians (Rabs (d_lat - o_lat)))%R.
Proof.
  intros H. rewrite gcd_value. f_equal. now apply hav_dist_meridian.
Qed.

(** X10, one hundredth of a degree north of latitude 33. *)
Lemma gcd_along_meridian_witness :
  gcd (Some 33%R) (Some (-84)%R) (Some 33.01%R) (Some (-84)%R)
  = Ok (earth_radius * radians (Rabs (33.01 - 33)))%R.
Proof.
  apply gcd_along_meridian.
  unfold Rabs. destruct (Rcase_abs (33.01 - 33)); lra.
Defined.

(** X11. Between two points of the equator whose longitudes differ by at
    most 180 degrees, the distance is the radius times the difference of
    longitude in radians. *)
Theorem gcd_along_equator (o_lon d_lon : R) :
  (Rabs (d_lon - o_lon) <= 180)%R ->
  gcd (Some 0%R) (Some o_lon) (Some 0%R) (Some d_lon)
  = Ok (earth_radius * radians (Rabs (d_lon - o_lon)))%R.
Proof.
  intros H. rewrite gcd_value. f_equal. now apply hav_dist_equator.
Qed.

(** X11, from longitude -84 to longitude -83. *)
Lemma gcd_along_equator_witness :
  gcd (Some 0%R) (Some (-84)%R) (Some 0%R) (Some (-83)%R)
  = Ok (earth_radius * radians (Rabs (-83 - -84)))%R.
Proof.
  apply gcd_along_equator.
  unfold Rabs. destruct (Rcase_abs (-83 - -84)); lra.
Defined.

Section GcdZero.
Local Open Scope R_scope.

Lemma atan2_pos (y x : R) : 0 < y -> 0 <= x -> 0 < atan2 y x.
Proof.
  intros Hy Hx. unfold atan2. pose proof PI_RGT_0 as Hpi.
  destruct (Rlt_dec 0 x) as [Hx'|_].
  - rewrite <- atan_0. apply atan_increasing.
    apply Rmult_lt_0_compat; [exact Hy|now apply Rinv_0_lt_compat].
  - destruct (Rlt_dec x 0); [lra|]. destruct (Rlt_dec 0 y); lra.
Qed.

Lemma hav_dist_zero_a (o_lat o_lon d_lat d_lon : R) :
  hav_dist o_lat o_lon d_lat d_lon = 0 -> hav_a o_lat o_lon d_lat d_lon = 0.
Proof.
  unfold hav_dist, earth_radius. intros H.
  pose proof (hav_a_bounds o_lat o_lon d_lat d_lon) as [Ha0 Ha1].
  destruct Ha0 as [Hpos|Heq]; [|now symmetry].
  pose proof (atan2_pos (sqrt_lt_R0 _ Hpos)
                        (sqrt_pos (1 - hav_a o_lat o_lon d_lat d_lon))).
  lra.
Qed.

(** A sine vanishes on [-PI, PI] at -PI, 0 and PI only. *)
Lemma sin_zero_cases (x : R) :
  - PI <= x <= PI -> sin x = 0 -> x = 0 \/ x = PI \/ x = - PI.
Proof.
  intros [Hl Hu] Hs. pose proof PI_RGT_0 as Hpi.
  destruct (Rtotal_order x 0) as [Hneg|[H0|Hpos]].
  - destruct Hl as [Hl|Hl]; [|right; right; lra].
    pose proof (sin_gt_0 (- x)) as H. rewrite sin_neg in H.
    assert (0 < - sin x) by (apply H; lra). lra.
  - now left.
  - destruct Hu as [Hu|Hu]; [|right; left; lra].
    pose proof (sin_gt_0 x Hpos Hu). lra.
Qed.

Lemma cos_zero_cases (x : R) :
  - (PI / 2) <= x <= PI / 2 -> cos x = 0 -> Rabs x = PI / 2.
Proof.
  intros [Hl Hu] Hc. pose proof PI_RGT_0 as Hpi.
  destruct Hl as [Hl|Hl].
  - destruct Hu as [Hu|Hu].
    + pose proof (cos_gt_0 x Hl Hu). lra.
    + rewrite Hu. apply Rabs_right. lra.
  - rewrite <- Hl, Rabs_Ropp. apply Rabs_right. lra.
Qed.

Lemma hav_a_zero (o_lat o_lon d_lat d_lon : R) :
  -90 <= o_lat <= 90 -> -90 <= d_lat <= 90 ->
  -180 <= o_lon <= 180 -> -180 <= d_lon <= 180 ->
  hav_a o_lat o_lon d_lat d_lon = 0 ->
  o_lat = d_lat
  /\ (o_lon = d_lon \/ Rabs o_lat = 90 \/ Rabs (d_lon - o_lon) = 360).
Proof.
  intros Ho Hd Hlo Hld Ha. pose proof PI_RGT_0 as Hpi.
  unfold hav_a in Ha.
  assert (Hco : 0 <= cos (radians o_lat))
    by (apply cos_ge_0; unfold radians; nra).
  assert (Hcd : 0 <= cos (radians d_lat))
    by (apply cos_ge_0; unfold radians; nra).
  set (s1 := sin (radians (d_lat - o_lat) / 2)) in *.
  set (s2 := sin (radians (d_lon - o_lon) / 2)) in *.
  assert (Hnn : 0 <= cos (radians o_lat) * cos (radians d_lat) * s2 ^ 2).
  { apply Rmult_le_pos; [now apply Rmult_le_pos|apply pow2_ge_0]. }
  pose proof (pow2_ge_0 s1) as Hs1sq.
  assert (Hs1 : s1 = 0).
  { destruct (Req_dec s1 0) as [E|E]; [exact E|].
    apply (pow_nonzero _ 2) in E. lra. }
  assert (Hprod : cos (radians o_lat) * cos (radians d_lat) * s2 ^ 2 = 0)
    by lra.
  assert (Hlat : o_lat = d_lat).
  { unfold s1 in Hs1. apply sin_zero_cases in Hs1.
    - unfold radians in Hs1. destruct Hs1 as [H|[H|H]]; nra.
    - unfold radians. split; nra. }
  split; [exact Hlat|]. subst d_lat.
  destruct (Req_dec (cos (radians o_lat)) 0) as [Hc|Hc].
  - right. left. apply cos_zero_cases in Hc.
    + rewrite <- radians_abs in Hc. unfold radians in Hc.
      pose proof (Rabs_pos o_lat). nra.
    + unfold radians. split; nra.
  - assert (Hs2 : s2 = 0).
    { destruct (Req_dec s2 0) as [E|E]; [exact E|].
      apply (pow_nonzero _ 2) in E.
      apply Rmult_integral in Hprod. destruct Hprod as [Hp|Hp]; [|lra].
      apply Rmult_integral in Hp. destruct Hp; lra. }
    unfold s2 in Hs2. apply sin_zero_cases in Hs2.
    + unfold radians in Hs2. destruct Hs2 as [H|[H|H]].
      * left. nra.
      * right. right. rewrite Rabs_right; nra.
      * right. right. rewrite Rabs_left; nra.
    + unfold radians. split; nra.
Qed.

End GcdZero.

(** X12. On valid coordinates the distance is 0 only between points of one
    latitude that have one longitude, or lie at a pole, or have longitudes
    -180 and 180. *)
Theorem gcd_zero_only_if (o_lat o_lon d_lat d_lon : R) :
  (-90 <= o_lat <= 90)%R -> (-90 <= d_lat <= 90)%R ->
  (-180 <= o_lon <= 180)%R -> (-180 <= d_lon <= 180)%R ->
  gcd (Some o_lat) (Some o_lon) (Some d_lat) (Some d_lon) = Ok 0%R ->
  o_lat = d_lat
  /\ (o_lon = d_lon \/ Rabs o_lat = 90%R \/ Rabs (d_lon - o_lon) = 360%R).
Proof.
  intros Ho Hd Hlo Hld H. rewrite gcd_value in H. injection H as H.
  apply hav_a_zero; try assumption. now apply hav_dist_zero_a.
Qed.

(** X12, at a point and itself. *)
Lemma gcd_zero_only_if_witness :
  33%R = 33%R
  /\ ((-84)%R = (-84)%R \/ Rabs 33 = 90%R \/ Rabs (-84 - -84) = 360%R).
Proof.
  apply (gcd_zero_only_if (o_lat := 33) (o_lon := -84) (d_lat := 33)
                          (d_lon := -84)); try lra.
  rewrite gcd_value. f_equal. apply hav_dist_same.
Defined.

(** X13. The distance depends on the longitudes only through their
    difference, and a full turn of 360 degrees of longitude changes
    nothing. *)
Theorem gcd_longitude_shift (o_lat o_lon d_lat d_lon t : R) :
  gcd (Some o_lat) (Some (o_lon + t)%R) (Some d_lat) (Some (d_lon + t)%R)
  = gcd (Some o_lat) (Some o_lon) (Some d_lat) (Some d_lon)
  /\ gcd (Some o_lat) (Some o_lon) (Some d_lat) (Some (d_lon + 360)%R)
     = gcd (Some o_lat) (Some o_lon) (Some d_lat) (Some d_lon).
Proof.
  rewrite !gcd_value. unfold hav_dist, hav_a. split.
  - replace (d_lon + t - (o_lon + t))%R with (d_lon - o_lon)%R by ring.
    reflexivity.
  - replace (radians (d_lon + 360 - o_lon) / 2)%R
      with (radians (d_lon - o_lon) / 2 + PI)%R
      by (unfold radians; field).
    rewrite neg_sin.
    replace ((- sin (radians (d_lon - o_lon) / 2)) ^ 2)%R
      with (sin (radians (d_lon - o_lon) / 2) ^ 2)%R by ring.
    reflexivity.
Qed.

(** ** More on the fetcher and on the script *)

Lemma mapM_Forall2 {A B} (f : A -> result B) (l : list A) :
  forall bs, mapM f l = Ok bs <-> Forall2 (fun a b => f a = Ok b) l bs.
Proof.
  induction l as [|a l IH]; intros bs; simpl.
  - split.
    + intros [= <-]. constructor.
    + intros H. inversion H. reflexivity.
  - split.
    + intros H. bind_inv H. injection H as <-.
      constructor; [assumption|]. now apply IH.
    + intros H. inversion H as [|? b ? bs' Hb Hl]; subst.
      rewrite Hb. cbn [bind]. apply IH in Hl. rewrite Hl. reflexivity.
Qed.

Lemma Forall2_choice {A B C} (P : A -> C -> Prop) (g : C -> B)
  (l : list A) :
  forall bs,
  Forall2 (fun a b => exists c, P a c /\ b = g c) l bs
  <-> exists cs, Forall2 P l cs /\ bs = map g cs.
Proof.
  induction l as [|a l IH]; intros bs.
  - split.
    + intros H. inversion H. exists []. split; [constructor|reflexivity].
    + intros [cs [H ->]]. inversion H. constructor.
  - split.
    + intros H. inversion H as [|? b ? bs' [c [Hc ->]] Hl]; subst.
      apply IH in Hl. destruct Hl as [cs [Hcs ->]].
      exists (c :: cs). split; [now constructor|reflexivity].
    + intros [cs [H ->]]. inversion H as [|? c ? cs' Hc Hl]; subst.
      simpl. constructor; [eauto|]. apply IH. eauto.
Qed.

Lemma has_bar_app (a b : string) :
  has_bar (a ++ b) = has_bar a || has_bar b.
Proof.
  induction a as [|c a IH]; simpl; [reflexivity|].
  now rewrite IH, orb_assoc.
Qed.

Section FetchMore.
Variable json_loads : string -> option pyobj.
Variable py_str : pyobj -> string.

#[local] Abbreviation node_of := (coordinate_node py_str).

Lemma intersection_node_spec (i : pyobj) (n : RoutePoint pyobj) :
  intersection_node py_str i = Ok n
  <-> exists c, location_at i (fst c) (snd c) /\ n = node_of c.
Proof.
  unfold intersection_node, location_at, coordinate_node. split.
  - intros H. bind_inv H. injection H as <-.
    exists (a0, a1). simpl. eauto.
  - intros [[lat lon] [[loc [H1 [H2 H3]]] ->]]. simpl in *.
    rewrite H1. cbn [bind]. rewrite H2. cbn [bind]. rewrite H3. reflexivity.
Qed.

Lemma step_nodes_spec (s : pyobj) (ns : list (RoutePoint pyobj)) :
  step_nodes py_str s = Ok ns
  <-> exists cs, intersections_of s cs /\ ns = map node_of cs.
Proof.
  unfold step_nodes, intersections_of. split.
  - intros H. bind_inv H. apply mapM_Forall2 in H.
    assert (H' : Forall2 (fun i n => exists c,
                   location_at i (fst c) (snd c) /\ n = node_of c) a0 ns).
    { eapply Forall2_impl; [|exact H]. intros i n.
      apply intersection_node_spec. }
    apply Forall2_choice in H'. destruct H' as [cs [Hcs ->]].
    exists cs. split; [|reflexivity]. eauto.
  - intros [cs [[ints [items [H1 [H2 H3]]]] ->]].
    rewrite H1. cbn [bind]. rewrite H2. cbn [bind].
    apply mapM_Forall2.
    eapply Forall2_impl;
      [|apply (Forall2_choice (fun i c => location_at i (fst c) (snd c))
                              node_of); eauto].
    intros i n. apply intersection_node_spec.
Qed.

Lemma step_list_spec (step_list : list pyobj)
  (per_step : list (list (RoutePoint pyobj))) :
  mapM (step_nodes py_str) step_list = Ok per_step
  <-> exists coordss,
        Forall2 intersections_of step_list coordss
        /\ per_step = map (map node_of) coordss.
Proof.
  rewrite mapM_Forall2, <- Forall2_choice. split; intros H;
    (eapply Forall2_impl; [|exact H]); intros s ns; apply step_nodes_spec.
Qed.

(** What the fetcher returns, and when. *)
Lemma get_nodes_spec (o_lat o_lon d_lat d_lon : R) (r : response)
  (l : list (RoutePoint pyobj)) :
  get_nodes json_loads py_str o_lat o_lon d_lat d_lon r = Ok (Some l)
  <-> status_code r = 200%Z
      /\ exists step_list coordss,
           steps_of (json_loads (text r)) step_list
           /\ Forall2 intersections_of step_list coordss
           /\ l = mkPoint "start" (PFloat o_lat) (PFloat o_lon)
                  :: map node_of (concat coordss)
                  ++ [mkPoint "end" (PFloat d_lat) (PFloat d_lon)].
Proof.
  unfold get_nodes, steps_of. split.
  - intros H. destruct (Z.eqb_spec (status_code r) 200) as [Hs|Hs];
      cbn [negb] in H; [|discriminate].
    split; [exact Hs|].
    destruct (json_loads (text r)) as [doc|]; cbn [bind] in H;
      [|discriminate].
    bind_inv H. injection H as <-.
    apply step_list_spec in E5. destruct E5 as [coordss [Hc ->]].
    exists a4, coordss. split; [do 6 eexists; repeat split; eauto|].
    split; [exact Hc|]. now rewrite concat_map.
  - intros [Hs [step_list [coordss [Hsteps [Hc ->]]]]].
    destruct Hsteps as
      [doc [routes [route0 [legs [leg0 [steps
        [H0 [H1 [H2 [H3 [H4 [H5 H6]]]]]]]]]]]].
    rewrite Hs, H0. cbn [Z.eqb Pos.eqb negb bind].
    rewrite H1. cbn [bind]. rewrite H2. cbn [bind].
    rewrite H3. cbn [bind]. rewrite H4. cbn [bind].
    rewrite H5. cbn [bind]. rewrite H6. cbn [bind].
    assert (Hm : mapM (step_nodes py_str) step_list
                 = Ok (map (map node_of) coordss))
      by (apply step_list_spec; eauto).
    rewrite Hm. cbn [bind]. now rewrite concat_map.
Qed.

Lemma coordinate_node_id (c : pyobj * pyobj) :
  id_of_coordinates py_str (node_of c).
Proof. reflexivity. Qed.

Lemma id_of_coordinates_bar (n : RoutePoint pyobj) :
  id_of_coordinates py_str n -> has_bar (node_id n) = true.
Proof.
  unfold id_of_coordinates. intros ->.
  rewrite !has_bar_app. simpl. now rewrite orb_true_r.
Qed.

(** The list the fetcher returns: the origin, nodes whose ids are made of
    their coordinates, the destination. *)
Lemma get_nodes_parts (o_lat o_lon d_lat d_lon : R) (r : response)
  (l : list (RoutePoint pyobj)) :
  get_nodes json_loads py_str o_lat o_lon d_lat d_lon r = Ok (Some l) ->
  exists mid,
    l = mkPoint "start" (PFloat o_lat) (PFloat o_lon)
        :: mid ++ [mkPoint "end" (PFloat d_lat) (PFloat d_lon)]
    /\ Forall (id_of_coordinates py_str) mid.
Proof.
  intros H. apply get_nodes_spec in H.
  destruct H as [_ [step_list [coordss [_ [_ ->]]]]].
  eexists. split; [reflexivity|].
  apply Forall_forall. intros n Hn. apply in_map_iff in Hn.
  destruct Hn as [c [<- _]]. apply coordinate_node_id.
Qed.

(** The loop keeps the first node, and keeps a last node whose id is the id
    of no node before it. *)
Lemma dedupe_ends (x z : RoutePoint pyobj) (mid : list (RoutePoint pyobj)) :
  node_id z <> node_id x ->
  (forall y, In y mid -> node_id y <> node_id z) ->
  exists mid',
    dedupe (x :: mid ++ [z]) = x :: mid' ++ [z]
    /\ forall y, In y mid' -> In y mid.
Proof.
  intros Hx Hmid.
  change (x :: mid ++ [z]) with ((x :: mid) ++ [z]).
  assert (Hsub : forall y, In y (dedupe (x :: mid)) -> In y (x :: mid)).
  { intros y. apply subseq_In. rewrite dedupe_from.
    apply dedup_from_subseq. }
  rewrite dedupe_keeps.
  - rewrite dedupe_head in *.
    exists (dedup_from (tl initial_window ++ [PStr (node_id x)]) mid).
    split; [reflexivity|].
    intros y Hy. eapply subseq_In; [apply dedup_from_subseq|exact Hy].
  - intros Hin. apply in_recent5 in Hin. destruct Hin as [y [Hy Hid]].
    apply Hsub in Hy. destruct Hy as [<-|Hy].
    + congruence.
    + now apply (Hmid y).
Qed.

End FetchMore.

(** X14. The fetcher returns a node list exactly when the status is 200 and
    the body holds the steps of the first leg of the first route, every step
    with its intersections, every intersection with its location; the list
    is then the origin under the id 'start', one node for every intersection
    of every step, in the order of the response, with location[1] as its
    latitude, location[0] as its longitude and the two joined by a bar as its
    id, and the destination under the id 'end'. *)
Theorem get_nodes_returns (json_loads : string -> option pyobj)
  (py_str : pyobj -> string) (o_lat o_lon d_lat d_lon : R) (r : response)
  (l : list (RoutePoint pyobj)) :
  get_nodes json_loads py_str o_lat o_lon d_lat d_lon r = Ok (Some l)
  <-> status_code r = 200%Z
      /\ exists step_list coordss,
           steps_of (json_loads (text r)) step_list
           /\ Forall2 intersections_of step_list coordss
           /\ l = mkPoint "start" (PFloat o_lat) (PFloat o_lon)
                  :: map (coordinate_node py_str) (concat coordss)
                  ++ [mkPoint "end" (PFloat d_lat) (PFloat d_lon)].
Proof. apply get_nodes_spec. Qed.

(** X15. A list the fetcher returns holds two nodes more than the response
    holds intersections, and at least two. *)
Theorem get_nodes_count (json_loads : string -> option pyobj)
  (py_str : pyobj -> string) (o_lat o_lon d_lat d_lon : R) (r : response)
  (l : list (RoutePoint pyobj)) (step_list : list pyobj)
  (coordss : list (list (pyobj * pyobj))) :
  get_nodes json_loads py_str o_lat o_lon d_lat d_lon r = Ok (Some l) ->
  steps_of (json_loads (text r)) step_list ->
  Forall2 intersections_of step_list coordss ->
  length l = 2 + list_sum (map (@length _) coordss).
Proof.
  intros H Hs Hc.
  assert (H' : get_nodes json_loads py_str o_lat o_lon d_lat d_lon r
               = Ok (Some (mkPoint "start" (PFloat o_lat) (PFloat o_lon)
                           :: map (coordinate_node py_str) (concat coordss)
                           ++ [mkPoint "end" (PFloat d_lat) (PFloat d_lon)]))).
  { apply get_nodes_spec. split.
    - apply get_nodes_spec in H. tauto.
    - eauto. }
  rewrite H in H'. injection H' as ->.
  simpl. rewrite length_app, length_map. simpl.
  rewrite length_concat. lia.
Qed.

(** X15, on a response of two steps with two intersections and one. *)
Lemma get_nodes_count_witness :
  let at_ (lon lat : R) :=
    PDict [("location"%string, PList [PFloat lon; PFloat lat])] in
  let step1 := PDict [("intersections"%string,
                       PList [at_ (-84)%R 33%R; at_ (-85)%R 34%R])] in
  let step2 := PDict [("intersections"%string, PList [at_ (-86)%R 35%R])] in
  let body :=
    PDict [("routes"%string,
            PList [PDict [("legs"%string,
              PList [PDict [("steps"%string, PList [step1; step2])]])]])] in
  let nodes :=
    [mkPoint "start" (PFloat 1) (PFloat 2);
     mkPoint "c|c" (PFloat 33) (PFloat (-84));
     mkPoint "c|c" (PFloat 34) (PFloat (-85));
     mkPoint "c|c" (PFloat 35) (PFloat (-86));
     mkPoint "end" (PFloat 3) (PFloat 4)] in
  length nodes = 2 + 3.
Proof.
  intros at_ step1 step2 body nodes.
  apply (@get_nodes_count (fun _ => Some body) (fun _ => "c"%string)
           1%R 2%R 3%R 4%R (mkResponse 200 "{...}") nodes
           [step1; step2]
           [[(PFloat 33, PFloat (-84)); (PFloat 34, PFloat (-85))];
            [(PFloat 35, PFloat (-86))]]).
  - reflexivity.
  - do 6 eexists. repeat split; reflexivity.
  - repeat constructor;
      (do 2 eexists; repeat split; try reflexivity);
      repeat constructor; eexists; repeat split; reflexivity.
Defined.

(** X16. Whatever the response, a cleaned node list the script reaches
    starts with the origin under the id 'start' and ends with the
    destination under the id 'end': the loop never drops either; the nodes
    between them carry ids made of their coordinates.  The list has at least
    two nodes. *)
Theorem script_clean_ends (json_loads : string -> option pyobj)
  (py_str : pyobj -> string) (r : response) (l : list (RoutePoint pyobj)) :
  script_clean json_loads py_str r = Ok l ->
  exists mid,
    l = mkPoint "start" (PFloat 33.7354442) (PFloat (-84.3980167))
        :: mid ++ [mkPoint "end" (PFloat 33.735652) (PFloat (-84.389573))]
    /\ Forall (id_of_coordinates py_str) mid
    /\ 2 <= length l.
Proof.
  unfold script_clean. intros H. bind_inv H.
  destruct a as [full|]; [|discriminate]. injection H as <-.
  apply get_nodes_parts in E. destruct E as [mid [-> Hmid]].
  rewrite Forall_forall in Hmid.
  destruct (dedupe_ends
              (mkPoint "start" (PFloat 33.7354442) (PFloat (-84.3980167)))
              (mkPoint "end" (PFloat 33.735652) (PFloat (-84.389573)))
              mid) as [mid' [E Hsub]].
  - discriminate.
  - intros y Hy Hid. apply Hmid, id_of_coordinates_bar in Hy.
    rewrite Hid in Hy. discriminate.
  - exists mid'. rewrite E. split; [reflexivity|]. split.
    + apply Forall_forall. intros y Hy. apply Hmid, Hsub, Hy.
    + simpl. rewrite length_app. simpl. lia.
Qed.

(** X16, on a response of one step whose two intersections lie at the same
    place: the second is dropped. *)
Lemma script_clean_ends_witness :
  let at_ (lon lat : R) :=
    PDict [("location"%string, PList [PFloat lon; PFloat lat])] in
  let body :=
    PDict [("routes"%string,
            PList [PDict [("legs"%string,
              PList [PDict [("steps"%string,
                PList [PDict [("intersections"%string,
                  PList [at_ (-84)%R 33%R; at_ (-84)%R 33%R])]])]])]])] in
  let l :=
    [mkPoint "start" (PFloat 33.7354442) (PFloat (-84.3980167));
     mkPoint "c|c" (PFloat 33) (PFloat (-84));
     mkPoint "end" (PFloat 33.735652) (PFloat (-84.389573))] in
  exists mid,
    l = mkPoint "start" (PFloat 33.7354442) (PFloat (-84.3980167))
        :: mid ++ [mkPoint "end" (PFloat 33.735652) (PFloat (-84.389573))]
    /\ Forall (id_of_coordinates (fun _ => "c"%string)) mid
    /\ 2 <= length l.
Proof.
  intros at_ body l.
  apply (@script_clean_ends (fun _ => Some body) (fun _ => "c"%string)
           (mkResponse 200 "{...}") l).
  reflexivity.
Defined.

(** ** The fetcher on well-formed and on deficient bodies *)













(** ** More on the distance annotation *)

Section AnnotateMore.
Local Open Scope R_scope.

Lemma fold_left_Rplus_acc (l : list R) (acc : R) :
  fold_left Rplus l acc = acc + fold_left Rplus l 0.
Proof.
  revert acc. induction l as [|x l IH]; intros acc; simpl; [ring|].
  rewrite (IH (acc + x)), (IH (0 + x)). ring.
Qed.

Lemma sum_dists_after (p : RoutePoint R) (t : list (RoutePoint R)) :
  fold_left Rplus (dists_after p t) 0 = route_length (p :: t).
Proof.
  revert p. induction t as [|q t IH]; intros p.
  - reflexivity.
  - cbn [dists_after fold_left route_length].
    rewrite fold_left_Rplus_acc, IH. cbn [route_length]. ring.
Qed.

Lemma route_length_snoc (l : list (RoutePoint R)) (q p : RoutePoint R) :
  route_length (l ++ [q; p])
  = route_length (l ++ [q])
    + hav_dist (node_lat q) (node_lon q) (node_lat p) (node_lon p).
Proof.
  induction l as [|a l IH].
  - simpl. ring.
  - destruct l as [|b l].
    + simpl. ring.
    + change ((a :: b :: l) ++ [q; p]) with (a :: (b :: l) ++ [q; p]).
      change ((a :: b :: l) ++ [q]) with (a :: (b :: l) ++ [q]).
      cbn [route_length app] in *. rewrite IH. ring.
Qed.

Lemma route_length_rev (l : list (RoutePoint R)) :
  route_length (rev l) = route_length l.
Proof.
  induction l as [|p t IH]; [reflexivity|].
  destruct t as [|q t]; [reflexivity|].
  change (rev (p :: q :: t)) with ((rev t ++ [q]) ++ [p]).
  rewrite <- app_assoc. cbn [app].
  rewrite route_length_snoc.
  change (rev t ++ [q]) with (rev (q :: t)). rewrite IH.
  cbn [route_length]. unfold hav_dist. rewrite (hav_a_sym (node_lat q)).
  ring.
Qed.

(** On exact reals every call of [gcd] returns the haversine distance. *)
Lemma gcd_after_exact (t : list (RoutePoint R)) :
  forall p, gcd_after exact p t = Ok (dists_after p t).
Proof.
  induction t as [|q t IH]; intros p; [reflexivity|].
  cbn [gcd_after dists_after].
  rewrite gcd_fl_exact, gcd_value. cbn [bind]. now rewrite IH.
Qed.

(** On exact reals the cumulative distance of the last row is the length of
    the route. *)
Lemma annotate_exact_total (nodes : list (RoutePoint R))
  (rows : list (AnnotatedNode R)) :
  annotate exact nodes = Ok rows ->
  forall r, nth_error rows (length rows - 1) = Some r ->
  cuml_dist r = route_length nodes.
Proof.
  intros Ha r Hr.
  pose proof (annotate_length _ _ Ha) as Hlen.
  destruct (annotate_columns _ _ Ha) as [ds [Hg [_ [_ [_ Hc]]]]].
  apply (map_nth_error (@cuml_dist R)) in Hr. rewrite Hc, Hlen in Hr.
  destruct nodes as [|p t]; cbn [gcd_from_prev] in Hg.
  { injection Hg as <-. discriminate. }
  rewrite gcd_after_exact in Hg. injection Hg as <-.
  cbn [length] in Hr. rewrite Nat.sub_succ, Nat.sub_0_r in Hr.
  rewrite <- (length_dists_after p t) in Hr.
  rewrite accumulate_last in Hr. injection Hr as <-.
  rewrite <- sum_dists_after. reflexivity.
Qed.

End AnnotateMore.

(** X17. In a frame the annotation returns, every distance from the previous
    node and every distance to the next node is non-negative. *)
Theorem annotate_distances_nonneg (M : arith) (nodes : list (RoutePoint R))
  (rows : list (AnnotatedNode R)) :
  arith_laws M ->
  annotate M nodes = Ok rows ->
  forall r, In r rows ->
    (0 <= dist_from_prev r)%R /\ (0 <= dist_to_next r)%R.
Proof.
  intros laws Ha.
  destruct (annotate_columns _ _ Ha) as [ds [Hg [_ [Hf [Hn _]]]]].
  pose proof (gcd_from_prev_nonneg laws _ Hg) as Hnn.
  rewrite Forall_forall in Hnn.
  intros r Hr. split.
  - apply Hnn. rewrite <- Hf. now apply in_map.
  - apply (in_map (@dist_to_next R)) in Hr. rewrite Hn in Hr.
    destruct ds as [|d ds]; [contradiction|]. cbn [to_next] in Hr.
    apply in_app_or in Hr. destruct Hr as [Hr|[<-|[]]].
    + apply Hnn. now right.
    + apply Rle_refl.
Qed.

(** X17, on the second of two nodes and exact reals. *)
Lemma annotate_distances_nonneg_witness :
  let d := hav_dist 33 (-84) 34 (-85) in
  (0 <= dist_from_prev (mkRow (mkPoint "end" 34 (-85)) d 0 (0 + d)))%R
  /\ (0 <= dist_to_next (mkRow (mkPoint "end" 34 (-85)) d 0 (0 + d)))%R.
Proof.
  intros d.
  apply (@annotate_distances_nonneg exact
           [mkPoint "start" 33 (-84); mkPoint "end" 34 (-85)]%R
           [mkRow (mkPoint "start" 33 (-84)) 0 d 0;
            mkRow (mkPoint "end" 34 (-85)) d 0 (0 + d)]%R).
  - exact exact_laws.
  - apply (annotate_exact_pair (mkPoint "start" 33 (-84))
                               (mkPoint "end" 34 (-85)))%R.
  - right. left. reflexivity.
Defined.

(** X18. A frame the annotation returns has the given nodes as its points;
    its cumulative distance starts at 0, and for every node after the first
    the distance from the previous node is what [gcd] returns on the
    coordinates of the two nodes, and the cumulative distance is that of the
    previous node plus this distance, rounded. *)
Theorem annotate_recurrence (M : arith) (nodes : list (RoutePoint R))
  (rows : list (AnnotatedNode R)) :
  annotate M nodes = Ok rows ->
  map (@point R) rows = nodes
  /\ (forall r, nth_error rows 0 = Some r -> cuml_dist r = 0%R)
  /\ (forall i r r',
        nth_error rows i = Some r -> nth_error rows (S i) = Some r' ->
        gcd_fl M (Some (node_lat (point r))) (Some (node_lon (point r)))
                 (Some (node_lat (point r'))) (Some (node_lon (point r')))
        = Ok (dist_from_prev r')
        /\ cuml_dist r' = f_add M (cuml_dist r) (dist_from_prev r')).
Proof.
  intros Ha.
  destruct (annotate_columns _ _ Ha) as [ds [Hg [Hp [Hf [_ Hc]]]]].
  split; [exact Hp|]. split.
  - intros r Hr. apply (map_nth_error (@cuml_dist R)) in Hr.
    rewrite Hc in Hr. destruct nodes as [|p t]; cbn [gcd_from_prev] in Hg.
    + injection Hg as <-. discriminate.
    + bind_inv Hg. injection Hg as <-. simpl in Hr. congruence.
  - intros i r r' Hi Hi'.
    pose proof (map_nth_error (@point R) _ _ Hi) as Pi.
    pose proof (map_nth_error (@point R) _ _ Hi') as Pi'.
    pose proof (map_nth_error (@dist_from_prev R) _ _ Hi') as Fi'.
    pose proof (map_nth_error (@cuml_dist R) _ _ Hi) as Ci.
    pose proof (map_nth_error (@cuml_dist R) _ _ Hi') as Ci'.
    rewrite Hp in Pi, Pi'. rewrite Hf in Fi'. rewrite Hc in Ci, Ci'.
    split.
    + destruct nodes as [|p t]; [destruct i; discriminate|].
      cbn [gcd_from_prev] in Hg. bind_inv Hg. injection Hg as <-.
      cbn [nth_error] in Fi', Pi'.
      eapply gcd_after_nth; eassumption.
    + eapply accumulate_step; eassumption.
Qed.

(** X18, on two nodes and exact reals. *)
Lemma annotate_recurrence_witness :
  let nodes := [mkPoint "start" 33 (-84); mkPoint "end" 34 (-85)]%R in
  let d := hav_dist 33 (-84) 34 (-85) in
  let rows := [mkRow (mkPoint "start" 33 (-84)) 0 d 0;
               mkRow (mkPoint "end" 34 (-85)) d 0 (0 + d)]%R in
  map (@point R) rows = nodes
  /\ (forall r, nth_error rows 0 = Some r -> cuml_dist r = 0%R)
  /\ (forall i r r',
        nth_error rows i = Some r -> nth_error rows (S i) = Some r' ->
        gcd_fl exact (Some (node_lat (point r))) (Some (node_lon (point r)))
                 (Some (node_lat (point r'))) (Some (node_lon (point r')))
        = Ok (dist_from_prev r')
        /\ cuml_dist r' = f_add exact (cuml_dist r) (dist_from_prev r')).
Proof.
  intros nodes d rows.
  apply (@annotate_recurrence exact nodes rows).
  apply (annotate_exact_pair (mkPoint "start" 33 (-84))
                             (mkPoint "end" 34 (-85)))%R.
Defined.

(** X19. On exact reals the cumulative distance of the last node does not
    depend on the direction of travel: frames returned for a route and for
    the reversed route end on the same cumulative distance. *)
Theorem annotate_reversed_total (nodes : list (RoutePoint R))
  (rows rows' : list (AnnotatedNode R)) :
  annotate exact nodes = Ok rows ->
  annotate exact (rev nodes) = Ok rows' ->
  forall r r',
    nth_error rows (length rows - 1) = Some r ->
    nth_error rows' (length rows' - 1) = Some r' ->
    cuml_dist r = cuml_dist r'.
Proof.
  intros Ha Ha' r r' Hr Hr'.
  rewrite (annotate_exact_total _ Ha Hr).
  rewrite (annotate_exact_total _ Ha' Hr').
  symmetry. apply route_length_rev.
Qed.

(** X19, on two nodes: the distance there is the distance back. *)
Lemma annotate_reversed_total_witness :
  (0 + hav_dist 33 (-84) 34 (-85) = 0 + hav_dist 34 (-85) 33 (-84))%R.
Proof.
  pose (p := mkPoint "start" 33%R (-84)%R).
  pose (q := mkPoint "end" 34%R (-85)%R).
  pose (d := hav_dist 33 (-84) 34 (-85)).
  pose (d' := hav_dist 34 (-85) 33 (-84)).
  apply (@annotate_reversed_total [p; q]
           [mkRow p 0 d 0; mkRow q d 0 (0 + d)]%R
           [mkRow q 0 d' 0; mkRow p d' 0 (0 + d')]%R
           (annotate_exact_pair p q) (annotate_exact_pair q p)
           (mkRow q d 0 (0 + d))%R (mkRow p d' 0 (0 + d'))%R);
    reflexivity.
Defined.

(** ** More on the serializer *)

(** X20. When [str] prints numbers as JSON numbers, the line serializer emits
    one value per node; the value for the node at position i is the JSON
    array [lon, lat] of the node followed by the separator: a comma after
    every node but the last. *)
Theorem line_positions_emitted (F : Type) (str_float : F -> string)
  (df : list (AnnotatedNode F)) :
  prints_numbers str_float ->
  let values := df_apply (fun row => line_string str_float row (length df))
                         (lat_lon_columns df) in
  length values = length df
  /\ forall i row,
       nth_error df i = Some row ->
       exists body,
         nth_error values i = Some (body ++ separator i (length df))%string
         /\ json_parse body = Some (position str_float row)
         /\ separator i (length df)
            = if S i <? length df then String "," EmptyString
              else EmptyString.
Proof.
  intros Hnum values. split.
  - unfold values, lat_lon_columns.
    now rewrite length_df_apply, length_map.
  - intros i row Hi. exists (render (line_frags str_float row)).
    split; [|split].
    + unfold values. rewrite nth_error_df_apply.
      unfold lat_lon_columns. rewrite nth_error_map, Hi. cbn [option_map].
      now rewrite line_string_render.
    + apply json_parse_lexed, frags_tokens_lex.
      now apply line_frags_tokens.
    + apply separator_between. apply nth_error_Some. congruence.
Qed.

(** X20, on two nodes with integer values. *)
Lemma line_positions_emitted_witness :
  let df := [mkRow (mkPoint "start" 33 84) 0 7 0;
             mkRow (mkPoint "end" 34 85) 7 0 7] in
  let values := df_apply (fun row => line_string str_int row (length df))
                         (lat_lon_columns df) in
  values = ["[84,33],"%string; "[85,34]"%string]
  /\ length values = length df
  /\ forall i row,
       nth_error df i = Some row ->
       exists body,
         nth_error values i = Some (body ++ separator i (length df))%string
         /\ json_parse body = Some (position str_int row)
         /\ separator i (length df)
            = if S i <? length df then String "," EmptyString
              else EmptyString.
Proof.
  intros df. split; [reflexivity|].
  apply (@line_positions_emitted nat str_int df).
  exact str_int_number.
Defined.

(** X21. In the variant of the script that sets the column width to 10000
    before it writes: when the annotation returns a frame for a route of
    at least one node, [str] prints numbers as JSON numbers and no value is
    longer than 10000 characters, the text written for the line is JSON for
    one LineString through the [lon, lat] of the cleaned nodes, one position
    per node, in the order of the route. *)
Theorem line_file_follows_route (M : arith) (str_float : R -> string)
  (node_list_clean : list (RoutePoint R)) (df : list (AnnotatedNode R)) :
  prints_numbers str_float ->
  node_list_clean <> [] ->
  annotate M node_list_clean = Ok df ->
  not_cut (Some variant_max_colwidth) (s_line str_float df) ->
  json_parse (line_geojson str_float (Some variant_max_colwidth) df)
  = Some (line_through (map (node_position str_float) node_list_clean)).
Proof.
  intros Hnum _ Ha Hcut.
  destruct (annotate_columns _ _ Ha) as [ds [_ [Hp _]]].
  rewrite <- Hp, map_map.
  apply json_parse_lexed. now apply lex_line_text.
Qed.

(** X21, on a route of two nodes and exact reals, with a [str] that prints
    every number as 1. *)
Lemma line_file_follows_route_witness :
  let str_float := fun _ : R => "1"%string in
  let p := mkPoint "start" 33%R (-84)%R in
  let q := mkPoint "end" 34%R (-85)%R in
  let d := hav_dist 33 (-84) 34 (-85) in
  let df := [mkRow p 0 d 0; mkRow q d 0 (0 + d)]%R in
  json_parse (line_geojson str_float (Some variant_max_colwidth) df)
  = Some (line_through (map (node_position str_float) [p; q])).
Proof.
  intros str_float p q d df.
  apply (@line_file_follows_route exact str_float [p; q] df).
  - intros x. reflexivity.
  - discriminate.
  - apply (annotate_exact_pair p q).
  - unfold not_cut, s_line, df_apply, lat_lon_columns, df.
    cbn [app map combine seq length].
    repeat (constructor; [apply Nat.leb_le; lazy; reflexivity|]).
    constructor.
Defined.

